(** * StockAnalyzer: moving-average crossover screen

    A shallow embedding of [app/data_fetcher.py] (class [StockDataFetcher])
    and of the dashboard scan of [app/main.py] ([StockApp.show_dashboard]),
    with the properties of the crossover engine proved about it.

    Conventions of the embedding.
    - In the frames a pandas float cell is a [float]: [Some q] for a
      number, [None] for NaN, and the two window kernels run in exact
      rational arithmetic ([Q]).  What is proved about frames, labels,
      events and the scan does not depend on the values the kernels
      compute.
    - The values themselves are binary64 floats in the program.  Module
      [Binary64] has the two window kernels as pandas runs them, every
      operation rounded, on Rocq's primitive floats; the statements about
      the values of the EMA and the SMA are made there, next to what the
      kernels give in exact arithmetic.
    - A [DataFrame] is an object in a store: [calculate_indicators] assigns
      columns of the frame it is given and returns that same frame, so
      frames are addressed by location ([loc]) in a [World].
    - The pandas and numpy operations the program calls ([ewm(...).mean()],
      [rolling(...).mean()], [shift], comparison of series, [np.where],
      [tail], boolean-mask selection, [iterrows], [sort_values], [isin]) are
      embedded by the algorithm the library documents for them. *)

From Stdlib Require Import QArith Lqa Ascii.
From Stdlib Require PrimFloat FloatOps SpecFloat Uint63.
From stdpp Require Import base option list gmap strings pretty sorting.

Local Open Scope Q_scope.

(** * The embedding *)

(** ** Floats with NaN *)

Abbreviation float := (option Q).

Definition Qlt_bool (x y : Q) : bool := negb (Qle_bool y x).

(** Comparison of two cells: any comparison with NaN is false. *)
Definition fgt (a b : float) : bool :=
  match a, b with Some x, Some y => Qlt_bool y x | _, _ => false end.

Definition flt (a b : float) : bool :=
  match a, b with Some x, Some y => Qlt_bool x y | _, _ => false end.

Definition fle (a b : float) : bool :=
  match a, b with Some x, Some y => Qle_bool x y | _, _ => false end.

Definition fge (a b : float) : bool :=
  match a, b with Some x, Some y => Qle_bool y x | _, _ => false end.

Definition Qnat (n : nat) : Q := inject_Z (Z.of_nat n).

Definition Qsum (l : list Q) : Q := foldr Qplus 0 l.

(** The numbers of a list of cells, NaN skipped. *)
Definition observed (l : list float) : list Q := omap id l.

(** [values[a:b]] *)
Definition slice {A} (l : list A) (a b : nat) : list A := take (b - a) (drop a l).

(** ** [Series.ewm(span=..., adjust=False).mean()] in exact arithmetic *)

(** pandas turns the span into a centre of mass, [com = (span - 1) / 2],
    and the centre of mass into [alpha = 1 / (1 + com)]. *)
Definition com_of_span (span : nat) : Q := (inject_Z (Z.of_nat span) - 1) / 2.

Definition alpha_of_span (span : nat) : Q := 1 / (1 + com_of_span span).

(** The weight of a new observation: [alpha], except that with a centre
    of mass of exactly 1 (that is, [alpha = 1/2]) the kernel takes
    [1 - old_wt], which differs from [alpha] after a NaN. *)
Definition new_weight (alpha old_wt : Q) : Q :=
  if Qeq_bool alpha (1 # 2) then 1 - old_wt else alpha.

(** One step of the recursion.  The state is the running average
    [weighted] and the weight [old_wt] it carries.  With [adjust=False] the
    weight of the past is reset to [1] after each observation; a NaN
    observation keeps the average and lets the weight of the past decay
    ([ignore_na=False]). *)
Definition ewm_step (alpha : Q) (st : float * Q) (cur : float) : float * Q :=
  let '(weighted, old_wt) := st in
  match weighted with
  | Some w =>
      let old_wt' := old_wt * (1 - alpha) in
      match cur with
      | Some x =>
          (Some (if Qeq_bool w x then w
                 else (old_wt' * w + new_weight alpha old_wt' * x)
                      / (old_wt' + new_weight alpha old_wt')), 1)
      | None => (Some w, old_wt')
      end
  | None => (cur, old_wt)
  end.

Fixpoint ewm_loop (alpha : Q) (st : float * Q) (vals : list float) : list float :=
  match vals with
  | [] => []
  | cur :: rest =>
      let st' := ewm_step alpha st cur in
      st'.1 :: ewm_loop alpha st' rest
  end.

Definition ewm_mean (alpha : Q) (vals : list float) : list float :=
  match vals with
  | [] => []
  | v0 :: rest => v0 :: ewm_loop alpha (v0, 1) rest
  end.

(** ** [Series.rolling(window=...).mean()] in exact arithmetic *)

(** The window of row [i] is [values[win_start i : win_end i]]. *)
Definition win_start (window i : nat) : nat := (i + 1 - window)%nat.

Definition win_end (i : nat) : nat := (i + 1)%nat.

(** The running state is the number of observations in the window and
    their sum. *)
Definition add_mean (st : nat * Q) (v : float) : nat * Q :=
  match v with Some x => (S st.1, st.2 + x) | None => st end.

Definition remove_mean (st : nat * Q) (v : float) : nat * Q :=
  match v with Some x => (pred st.1, st.2 - x) | None => st end.

(** NaN unless the window holds at least [minp] observations.  (The
    kernel also returns the value itself on a window of equal values and
    clamps a quotient of the wrong sign to 0; both are there against
    rounding and change nothing in exact arithmetic.  They are in
    [Binary64.calc_mean].) *)
Definition calc_mean (minp : nat) (st : nat * Q) : float :=
  if (minp <=? st.1)%nat && (0 <? st.1)%nat
  then Some (st.2 / inject_Z (Z.of_nat st.1))
  else None.

(** Row [i]: start afresh when the window does not overlap the previous
    one, otherwise drop the values that left the window and add the ones
    that entered it. *)
Definition roll_step (window : nat) (values : list float) (i : nat)
    (st : nat * Q) : nat * Q :=
  if (i =? 0)%nat || (win_end (i - 1) <=? win_start window i)%nat then
    foldl add_mean (0%nat, 0) (slice values (win_start window i) (win_end i))
  else
    let st1 := foldl remove_mean st
                 (slice values (win_start window (i - 1)) (win_start window i)) in
    foldl add_mean st1 (slice values (win_end (i - 1)) (win_end i)).

Fixpoint roll_from (window minp : nat) (values : list float) (i n : nat)
    (st : nat * Q) : list float :=
  match n with
  | O => []
  | S n' =>
      let st' := roll_step window values i st in
      calc_mean minp st' :: roll_from window minp values (S i) n' st'
  end.

(** [min_periods] defaults to the size of the window. *)
Definition rolling_mean (window : nat) (values : list float) : list float :=
  roll_from window window values 0 (length values) (0%nat, 0).

(** ** The two window kernels in binary64 *)

(** pandas runs [ewm(...).mean()] and [rolling(...).mean()] on binary64
    floats.  The kernels above are these computations in exact
    arithmetic; here they are as pandas runs them, every operation
    rounded, for the statements about the values they produce.  The floats
    are Rocq's primitive binary64 floats. *)

Declare Scope f64_scope.

Delimit Scope f64_scope with f64.

Number Notation PrimFloat.float PrimFloat.parser PrimFloat.printer : f64_scope.

Infix "+" := PrimFloat.add : f64_scope.

Infix "-" := PrimFloat.sub : f64_scope.

Infix "*" := PrimFloat.mul : f64_scope.

Infix "/" := PrimFloat.div : f64_scope.

Infix "=?" := PrimFloat.eqb : f64_scope.

Infix "<?" := PrimFloat.ltb : f64_scope.

Notation "- x" := (PrimFloat.opp x) : f64_scope.

Module Binary64.

Abbreviation f64 := PrimFloat.float.

(** An integer as a float (exact below [2^53]). *)
Definition of_Z (z : Z) : f64 :=
  match z with
  | Zneg p => PrimFloat.opp (PrimFloat.of_uint63 (Uint63.of_Z (Zpos p)))
  | _ => PrimFloat.of_uint63 (Uint63.of_Z z)
  end.

Definition of_nat (n : nat) : f64 := of_Z (Z.of_nat n).

Definition NaN : f64 := PrimFloat.nan.

(** [x != x] *)
Definition isnan (x : f64) : bool := negb (x =? x)%f64.

Definition isinf (x : f64) : bool := PrimFloat.is_infinity x.

Definition signbit (x : f64) : bool := PrimFloat.get_sign x.

(** Before a window kernel runs, the infinite values of the column are
    replaced by NaN. *)
Definition prep_values (values : list f64) : list f64 :=
  (λ v, if isinf v then NaN else v) <$> values.

(** [com = (span - 1) / 2] *)
Definition com_of_span (span : nat) : f64 := ((of_nat span - 1) / 2)%f64.

(** One pass of the loop of the [ewm] kernel, with [adjust=False],
    [ignore_na=False] and no [times]: [st] holds [weighted] and [old_wt].
    The guard [weighted != cur] avoids rounding on a constant series; with
    [com == 1] the weight of the new observation is [1 - old_wt]. *)
Definition ewm_step (com alpha : f64) (st : f64 * f64) (cur : f64) : f64 * f64 :=
  let '(weighted, old_wt) := st in
  if (weighted =? weighted)%f64 then
    let old_wt := (old_wt * (1 - alpha))%f64 in
    if (cur =? cur)%f64 then
      (if negb (weighted =? cur)%f64 then
         let new_wt := if (com =? 1)%f64 then (1 - old_wt)%f64 else alpha in
         ((old_wt * weighted + new_wt * cur) / (old_wt + new_wt))%f64
       else weighted,
       1%f64)
    else (weighted, old_wt)
  else if (cur =? cur)%f64 then (cur, old_wt)
  else (weighted, old_wt).

Fixpoint ewm_loop (com alpha : f64) (st : f64 * f64) (vals : list f64) : list f64 :=
  match vals with
  | [] => []
  | cur :: rest =>
      let st' := ewm_step com alpha st cur in
      st'.1 :: ewm_loop com alpha st' rest
  end.

(** The kernel: [alpha = 1 / (1 + com)], the first output is the first
    value.  ([min_periods] is 1 here, so an output is NaN only where
    [weighted] is.) *)
Definition ewm (com : f64) (vals : list f64) : list f64 :=
  let alpha := (1 / (1 + com))%f64 in
  match vals with
  | [] => []
  | v0 :: rest => v0 :: ewm_loop com alpha (v0, 1%f64) rest
  end.

(** The state of the [roll_mean] kernel: a compensated (Kahan) running
    sum, with one compensation for the additions and one for the
    removals, the number of negative values, and the length of the run of
    equal values that ends at the last value added. *)
Record MeanState := mkMean {
  nobs : Z;
  sum_x : f64;
  neg_ct : Z;
  compensation_add : f64;
  compensation_remove : f64;
  num_consecutive_same_value : Z;
  prev_value : f64;
}.

Definition add_mean (st : MeanState) (val : f64) : MeanState :=
  if (val =? val)%f64 then
    let y := (val - compensation_add st)%f64 in
    let t := (sum_x st + y)%f64 in
    mkMean (nobs st + 1) t
      (if signbit val then neg_ct st + 1 else neg_ct st)%Z
      (t - sum_x st - y)%f64
      (compensation_remove st)
      (if (val =? prev_value st)%f64
       then num_consecutive_same_value st + 1 else 1)%Z
      val
  else st.

Definition remove_mean (st : MeanState) (val : f64) : MeanState :=
  if (val =? val)%f64 then
    let y := (- val - compensation_remove st)%f64 in
    let t := (sum_x st + y)%f64 in
    mkMean (nobs st - 1) t
      (if signbit val then neg_ct st - 1 else neg_ct st)%Z
      (compensation_add st)
      (t - sum_x st - y)%f64
      (num_consecutive_same_value st)
      (prev_value st)
  else st.

(** The mean of the window: NaN below [minp] observations; the value
    itself on a window of equal values; clamped to 0 when rounding gave
    the quotient the wrong sign. *)
Definition calc_mean (minp : Z) (st : MeanState) : f64 :=
  if ((minp <=? nobs st) && (0 <? nobs st))%Z then
    let result := (sum_x st / of_Z (nobs st))%f64 in
    if (nobs st <=? num_consecutive_same_value st)%Z then prev_value st
    else if (neg_ct st =? 0)%Z && (result <? 0)%f64 then 0%f64
    else if (neg_ct st =? nobs st)%Z && (0 <? result)%f64 then 0%f64
    else result
  else NaN.

(** The state a window starts from: [prev_value] is the first value of
    the window. *)
Definition setup (values : list f64) (s : nat) : MeanState :=
  mkMean 0 0%f64 0 0%f64 0%f64 0 (default NaN (values !! s)).

Definition roll_step (window : nat) (values : list f64) (i : nat)
    (st : MeanState) : MeanState :=
  if (i =? 0)%nat || (win_end (i - 1) <=? win_start window i)%nat then
    foldl add_mean (setup values (win_start window i))
      (slice values (win_start window i) (win_end i))
  else
    let st1 := foldl remove_mean st
                 (slice values (win_start window (i - 1)) (win_start window i)) in
    foldl add_mean st1 (slice values (win_end (i - 1)) (win_end i)).

Fixpoint roll_from (window : nat) (minp : Z) (values : list f64) (i n : nat)
    (st : MeanState) : list f64 :=
  match n with
  | O => []
  | S n' =>
      let st' := roll_step window values i st in
      calc_mean minp st' :: roll_from window minp values (S i) n' st'
  end.

(** The kernel, over the windows of a fixed size. *)
Definition roll_mean (window : nat) (minp : Z) (values : list f64) : list f64 :=
  roll_from window minp values 0 (length values) (setup values 0).

(** [Series.ewm(span=span, adjust=False).mean()] and
    [Series.rolling(window=window).mean()] on a column of floats;
    [min_periods] defaults to the size of the window. *)
Definition ewm_mean (span : nat) (values : list f64) : list f64 :=
  ewm (com_of_span span) (prep_values values).

Definition rolling_mean (window : nat) (values : list f64) : list f64 :=
  roll_mean window (Z.of_nat window) (prep_values values).

End Binary64.

(** ** [Series.shift(1)], comparisons, [&] and [np.where] *)

(** [shift(1)]: every value one row down, NaN on the first row. *)
Definition shift1 (l : list float) : list float :=
  take (length l) (None :: l).

Definition series_cmp (op : float → float → bool) (a b : list float) : list bool :=
  zip_with op a b.

Definition series_and (a b : list bool) : list bool := zip_with andb a b.

Definition np_where {A} (cond : list bool) (x : A) (rest : list A) : list A :=
  zip_with (λ (c : bool) r, if c then x else r) cond rest.

Definition np_full {A} (n : nat) (x : A) : list A := replicate n x.

Inductive Signal := GOLDEN | DEATH | NONE.

#[global] Instance Signal_eq_dec : EqDecision Signal.
Proof. solve_decision. Defined.

(** Lines 96-104 of data_fetcher.py: GOLDEN where the first condition
    holds, else DEATH where the second holds, else NONE. *)
Definition crossover (ema sma : list float) : list Signal :=
  np_where
    (series_and (series_cmp fgt ema sma)
                (series_cmp fle (shift1 ema) (shift1 sma)))
    GOLDEN
    (np_where
       (series_and (series_cmp flt ema sma)
                   (series_cmp fge (shift1 ema) (shift1 sma)))
       DEATH
       (np_full (length ema) NONE)).

(** ** Frames, the store and the error monad *)

Inductive Column :=
  | Floats (xs : list float)
  | Labels (xs : list Signal).

Inductive Cell :=
  | Float (x : float)
  | Label (c : Signal).

(** A frame: the [DatetimeIndex] (timestamps) and the named columns. *)
Record DataFrame := mkFrame {
  index : list Z;
  columns : gmap string Column;
}.

Definition col_length (c : Column) : nat :=
  match c with Floats xs => length xs | Labels xs => length xs end.

Definition col_cell (c : Column) (i : nat) : option Cell :=
  match c with
  | Floats xs => Float <$> xs !! i
  | Labels xs => Label <$> xs !! i
  end.

(** [df.empty]: some axis has length zero. *)
Definition frame_empty (df : DataFrame) : bool :=
  bool_decide (index df = []) || bool_decide (columns df = ∅).

Definition loc := positive.

(** The mutable world: the frames alive, and the values the progress bar
    has been set to. *)
Record World := mkWorld {
  frames : gmap loc DataFrame;
  progress_bar : list Q;
}.

Inductive Exn :=
  | KeyError (k : string)
  | ValueError
  | TypeError
  | DataError.

Inductive Result (A : Type) :=
  | Ok (a : A)
  | Raise (e : Exn).

Arguments Ok {A} a.

Arguments Raise {A} e.

(** A computation changes the world and returns or raises; what it did to
    the world before raising stays done. *)
Definition M (A : Type) : Type := World → Result A * World.

Definition ret {A} (a : A) : M A := λ w, (Ok a, w).

Definition raise {A} (e : Exn) : M A := λ w, (Raise e, w).

Definition bind {A B} (m : M A) (k : A → M B) : M B :=
  λ w, match m w with
       | (Ok a, w') => k a w'
       | (Raise e, w') => (Raise e, w')
       end.

Definition lift {A} (r : Result A) : M A := λ w, (r, w).

Notation "x <- m ;; k" := (bind m (λ x, k))
  (at level 100, m at next level, right associativity).

Notation "m ;; k" := (bind m (λ _, k))
  (at level 100, right associativity).

(** The frame at [l] replaced, and a column of a frame replaced or added. *)
Definition set_frame (l : loc) (df : DataFrame) (w : World) : World :=
  mkWorld (<[l := df]> (frames w)) (progress_bar w).

Definition set_column (key : string) (c : Column) (df : DataFrame) : DataFrame :=
  mkFrame (index df) (<[key := c]> (columns df)).

(** [df[key]] *)
Definition getitem (l : loc) (key : string) : M Column :=
  λ w, match frames w !! l with
       | Some df =>
           match columns df !! key with
           | Some c => (Ok c, w)
           | None => (Raise (KeyError key), w)
           end
       | None => (Raise (KeyError key), w)
       end.

(** [df[key] = col]: the column is replaced or added, in place. *)
Definition setitem (l : loc) (key : string) (c : Column) : M unit :=
  λ w, match frames w !! l with
       | Some df => (Ok (), set_frame l (set_column key c df) w)
       | None => (Raise (KeyError key), w)
       end.

(** The float values of a column; a comparison of a column of strings
    with numbers raises [TypeError]. *)
Definition as_floats (c : Column) : Result (list float) :=
  match c with Floats xs => Ok xs | Labels _ => Raise TypeError end.

(** The values a window aggregation works on; on a column of strings
    [ewm] and [rolling] raise [DataError] (no numeric types to
    aggregate). *)
Definition numeric (c : Column) : Result (list float) :=
  match c with Floats xs => Ok xs | Labels _ => Raise DataError end.

(** [.ewm(span=span, adjust=False).mean()]: a span below 1 is refused. *)
Definition ewm_span_mean (span : nat) (c : Column) : Result Column :=
  if (span <? 1)%nat then Raise ValueError
  else
    match numeric c with
    | Ok xs => Ok (Floats (ewm_mean (alpha_of_span span) xs))
    | Raise e => Raise e
    end.

(** [.rolling(window=window).mean()] *)
Definition rolling_window_mean (window : nat) (c : Column) : Result Column :=
  match numeric c with
  | Ok xs => Ok (Floats (rolling_mean window xs))
  | Raise e => Raise e
  end.

Definition crossover_column (ema sma : Column) : Result Column :=
  match as_floats ema, as_floats sma with
  | Ok e, Ok s => Ok (Labels (crossover e s))
  | Raise x, _ => Raise x
  | _, Raise x => Raise x
  end.

(** The f-strings [f'EMA{ema_period}'] and [f'SMA{sma_period}']. *)
Definition ema_name (ema_period : nat) : string := "EMA" +:+ pretty ema_period.

Definition sma_name (sma_period : nat) : string := "SMA" +:+ pretty sma_period.

(** ** [StockDataFetcher.calculate_indicators] *)

Definition calculate_indicators (df : option loc) (ema_period sma_period : nat)
    : M (option loc) :=
  match df with
  | None => ret None
  | Some l =>
      λ w,
      match frames w !! l with
      | None => (Raise (KeyError "df"), w)
      | Some fr =>
          if frame_empty fr then (Ok None, w)
          else
            (close <- getitem l "Close";;
             ema <- lift (ewm_span_mean ema_period close);;
             setitem l (ema_name ema_period) ema;;
             close <- getitem l "Close";;
             sma <- lift (rolling_window_mean sma_period close);;
             setitem l (sma_name sma_period) sma;;
             ema <- getitem l (ema_name ema_period);;
             sma <- getitem l (sma_name sma_period);;
             cross <- lift (crossover_column ema sma);;
             setitem l "Crossover" cross;;
             ret (Some l)) w
      end
  end.

(** ** Price series *)

Record PricePoint := mkPoint {
  date : Z;
  open : Q;
  high : Q;
  low : Q;
  close : Q;
  volume : Q;
}.

Abbreviation PriceSeries := (list PricePoint).

(** The frame a history provider hands over for a price series. *)
Definition frame_of_series (ps : PriceSeries) : DataFrame :=
  mkFrame (date <$> ps)
    (<["Open" := Floats ((λ p, Some (open p)) <$> ps)]>
     (<["High" := Floats ((λ p, Some (high p)) <$> ps)]>
      (<["Low" := Floats ((λ p, Some (low p)) <$> ps)]>
       (<["Close" := Floats ((λ p, Some (close p)) <$> ps)]>
        (<["Volume" := Floats ((λ p, Some (volume p)) <$> ps)]> ∅))))).

Definition closes (ps : PriceSeries) : list float := (λ p, Some (close p)) <$> ps.

(** A store that holds the frame of a price series and nothing else. *)
Definition fresh_world (ps : PriceSeries) : World :=
  mkWorld {[1%positive := frame_of_series ps]} [].

Definition returned_frame (r : Result (option loc) * World) : option DataFrame :=
  match r with
  | (Ok (Some l), w) => frames w !! l
  | _ => None
  end.

(** [compute(series, emaPeriod, smaPeriod)]: [calculate_indicators] run on
    the frame of a price series; the frame it returns is read back from
    the store. *)
Definition compute (ps : PriceSeries) (ema_period sma_period : nat)
    : option DataFrame :=
  returned_frame
    (calculate_indicators (Some 1%positive) ema_period sma_period (fresh_world ps)).

(** Cell [t] of a float column of a frame: [Some (Some q)] is a number,
    [Some None] is NaN, [None] means there is no such row or column. *)
Definition float_at (df : option DataFrame) (key : string) (t : nat) : option float :=
  match df with
  | Some d =>
      match columns d !! key with
      | Some (Floats xs) => xs !! t
      | _ => None
      end
  | None => None
  end.

Definition label_at (df : option DataFrame) (key : string) (t : nat) : option Signal :=
  match df with
  | Some d =>
      match columns d !! key with
      | Some (Labels xs) => xs !! t
      | _ => None
      end
  | None => None
  end.

Definition EMA (ps : PriceSeries) (e s t : nat) : option float :=
  float_at (compute ps e s) (ema_name e) t.

Definition SMA (ps : PriceSeries) (e s t : nat) : option float :=
  float_at (compute ps e s) (sma_name s) t.

Definition Crossover (ps : PriceSeries) (e s t : nat) : option Signal :=
  label_at (compute ps e s) "Crossover" t.

(** The Crossover column of the frame [compute] returns. *)
Definition signals (ps : PriceSeries) (e s : nat) : list Signal :=
  match compute ps e s with
  | Some df =>
      match columns df !! "Crossover" with
      | Some (Labels l) => l
      | _ => []
      end
  | None => []
  end.

(** ** The dashboard scan ([StockApp.show_dashboard], lines 87-109) *)

(** [df.tail(n)]: the last [n] rows. *)
Definition list_tail {A} (n : nat) (l : list A) : list A := drop (length l - n) l.

(** Positions of the true entries of a boolean mask ([mask.nonzero()]). *)
Fixpoint nonzero_from (i : nat) (mask : list bool) : list nat :=
  match mask with
  | [] => []
  | b :: m => if b then i :: nonzero_from (S i) m else nonzero_from (S i) m
  end.

Definition nonzero (mask : list bool) : list nat := nonzero_from 0 mask.

(** [take(indexer)]: the rows at the given positions, in that order.  The
    positions come from a mask over the same rows, so they are in range. *)
Definition take_idx {A} (ix : list nat) (l : list A) : list A :=
  omap (λ i, l !! i) ix.

Definition col_map (f : ∀ A, list A → list A) (c : Column) : Column :=
  match c with
  | Floats xs => Floats (f _ xs)
  | Labels xs => Labels (f _ xs)
  end.

Definition frame_tail (n : nat) (df : DataFrame) : DataFrame :=
  mkFrame (list_tail n (index df)) (col_map (λ A, list_tail n) <$> columns df).

(** [df[mask]] for a boolean mask: the rows at the positions where the
    mask holds. *)
Definition frame_select (mask : list bool) (df : DataFrame) : DataFrame :=
  mkFrame (take_idx (nonzero mask) (index df))
          (col_map (λ A, take_idx (nonzero mask)) <$> columns df).

(** [column != 'NONE'], row by row. *)
Definition ne_NONE (c : Column) : list bool :=
  match c with
  | Labels xs => (λ x, bool_decide (x ≠ NONE)) <$> xs
  | Floats xs => (λ _, true) <$> xs
  end.

Definition frame_getitem (df : DataFrame) (key : string) : Result Column :=
  match columns df !! key with
  | Some c => Ok c
  | None => Raise (KeyError key)
  end.

(** A row of a frame, as [iterrows] yields it: the index label and the
    cells by column name. *)
Definition frame_row (df : DataFrame) (j : nat) : option (Z * gmap string Cell) :=
  match index df !! j with
  | Some idx => Some (idx, omap (λ c, col_cell c j) (columns df))
  | None => None
  end.

Definition iterrows (df : DataFrame) : list (Z * gmap string Cell) :=
  imap (λ j idx, (idx, omap (λ c, col_cell c j) (columns df))) (index df).

Definition row_getitem (row : gmap string Cell) (key : string) : Result Cell :=
  match row !! key with
  | Some c => Ok c
  | None => Raise (KeyError key)
  end.

(** The dict appended to [crossover_data] (lines 100-107 of main.py). *)
Record Event := mkEvent {
  ev_symbol : string;
  ev_crossover : Cell;
  ev_price : Cell;
  ev_date : Z;
  ev_ema : Cell;
  ev_sma : Cell;
}.

Definition rbind {A B} (r : Result A) (k : A → Result B) : Result B :=
  match r with
  | Ok a => k a
  | Raise e => Raise e
  end.

Definition make_event (symbol : string) (e s : nat)
    (r : Z * gmap string Cell) : Result Event :=
  rbind (row_getitem r.2 "Crossover") (λ cross,
  rbind (row_getitem r.2 "Close") (λ price,
  rbind (row_getitem r.2 (ema_name e)) (λ ema,
  rbind (row_getitem r.2 (sma_name s)) (λ sma,
  Ok (mkEvent symbol cross price r.1 ema sma))))).

(** The loop over [crossovers.iterrows()]. *)
Fixpoint append_events (symbol : string) (e s : nat)
    (rows : list (Z * gmap string Cell)) (crossover_data : list Event)
    : Result (list Event) :=
  match rows with
  | [] => Ok crossover_data
  | r :: rest =>
      rbind (make_event symbol e s r) (λ ev,
      append_events symbol e s rest (crossover_data ++ [ev]))
  end.

(** Lines 96-107: the crossovers among the last [days_to_look_back] rows
    of a frame with indicators. *)
Definition recent_crossovers (symbol : string) (e s days_to_look_back : nat)
    (df : DataFrame) (crossover_data : list Event) : Result (list Event) :=
  let recent_data := frame_tail days_to_look_back df in
  rbind (frame_getitem recent_data "Crossover") (λ cross,
  let crossovers := frame_select (ne_NONE cross) recent_data in
  append_events symbol e s (iterrows crossovers) crossover_data).

(** What [yf.Ticker(symbol).history(period)] does: raise, or hand over a
    price history (which may be empty). *)
Inductive Fetch :=
  | FetchRaises
  | History (ps : PriceSeries).

(** A new frame enters the store at a location not in use. *)
Definition alloc (df : DataFrame) : M loc :=
  λ w, let l := fresh (dom (frames w)) in (Ok l, set_frame l df w).

(** [fetch_stock_data]: the exception is caught and printed; an empty
    frame and a failed fetch both give [None]. *)
Definition fetch_stock_data (provider : string → Fetch) (symbol : string)
    : M (option loc) :=
  match provider symbol with
  | FetchRaises => ret None
  | History ps =>
      df <- alloc (frame_of_series ps);;
      λ w, match frames w !! df with
           | Some fr => if negb (frame_empty fr) then (Ok (Some df), w)
                        else (Ok None, w)
           | None => (Raise (KeyError "df"), w)
           end
  end.

Definition set_progress (q : Q) : M unit :=
  λ w, (Ok (), mkWorld (frames w) (progress_bar w ++ [q])).

(** The body of the loop for one symbol, lines 92-107. *)
Definition scan_symbol (provider : string → Fetch) (e s days_to_look_back : nat)
    (symbol : string) (crossover_data : list Event) : M (list Event) :=
  df <- fetch_stock_data provider symbol;;
  match df with
  | None => ret crossover_data
  | Some _ =>
      df <- calculate_indicators df e s;;
      match df with
      | None => ret crossover_data
      | Some l =>
          λ w, match frames w !! l with
               | Some fr =>
                   if frame_empty fr then (Ok crossover_data, w)
                   else (recent_crossovers symbol e s days_to_look_back fr
                           crossover_data, w)
               | None => (Raise (KeyError "df"), w)
               end
      end
  end.

(** The loop of lines 91-109: [i] counts the symbols done, [total] is
    [len(self.symbols)]. *)
Fixpoint scan_loop (provider : string → Fetch) (e s days_to_look_back : nat)
    (total i : nat) (symbols : list string) (crossover_data : list Event)
    : M (list Event) :=
  match symbols with
  | [] => ret crossover_data
  | symbol :: rest =>
      data <- scan_symbol provider e s days_to_look_back symbol crossover_data;;
      set_progress (Qnat (i + 1) / Qnat total);;
      scan_loop provider e s days_to_look_back total (S i) rest data
  end.

Definition scan (provider : string → Fetch) (e s days_to_look_back : nat)
    (symbols : list string) : M (list Event) :=
  scan_loop provider e s days_to_look_back (length symbols) 0 symbols [].

Definition empty_world : World := mkWorld ∅ [].

(** What a symbol adds to [crossover_data] when it is scanned alone, in a
    world with no frame and an untouched progress bar. *)
Definition symbol_events (provider : string → Fetch) (e s days_to_look_back : nat)
    (symbol : string) : list Event :=
  match (scan_symbol provider e s days_to_look_back symbol [] empty_world).1 with
  | Ok evs => evs
  | Raise _ => []
  end.

(** ** The aggregation ([StockApp.show_dashboard], lines 111-132) *)

(** [pd.DataFrame(crossover_data)] is kept as the list of its rows.
    [df.sort_values('Date', ascending=False)] puts them by descending
    date.  Only the date is looked at; pandas leaves the order of rows of
    equal date to the sorting algorithm, and here they keep the order in
    which they were collected. *)
Fixpoint insert_by_date (ev : Event) (sorted : list Event) : list Event :=
  match sorted with
  | [] => [ev]
  | x :: rest =>
      if (ev_date ev <? ev_date x)%Z then x :: insert_by_date ev rest
      else ev :: x :: rest
  end.

Definition sort_values_date_desc (rows : list Event) : list Event :=
  foldr insert_by_date [] rows.

(** [cell in values] of [Series.isin(values)], and [cell == value]. *)
Definition isin (c : Cell) (values : list Signal) : Prop :=
  match c with
  | Label x => x ∈ values
  | Float _ => False
  end.

Definition cell_is (value : Signal) (c : Cell) : Prop :=
  match c with
  | Label x => x = value
  | Float _ => False
  end.

#[global] Instance isin_dec c values : Decision (isin c values).
Proof. destruct c; cbn; apply _. Defined.

#[global] Instance cell_is_dec value c : Decision (cell_is value c).
Proof. destruct c; cbn; apply _. Defined.

(** [rows[mask]] on the table of events. *)
Definition select_rows (mask : list bool) (rows : list Event) : list Event :=
  take_idx (nonzero mask) rows.

(** What the dashboard shows. *)
Inductive Dashboard :=
  | NoRecentCrossovers
  | Signals (table : list Event) (golden_crosses death_crosses : nat).

Definition show_dashboard_signals (crossover_data : list Event)
    (signal_filter : list Signal) : Dashboard :=
  match crossover_data with
  | [] => NoRecentCrossovers
  | _ :: _ =>
      let df_crossover := sort_values_date_desc crossover_data in
      let filtered_df :=
        select_rows
          ((λ ev, bool_decide (isin (ev_crossover ev) signal_filter))
             <$> df_crossover)
          df_crossover in
      Signals filtered_df
        (length (select_rows
                   ((λ ev, bool_decide (cell_is GOLDEN (ev_crossover ev)))
                      <$> filtered_df) filtered_df))
        (length (select_rows
                   ((λ ev, bool_decide (cell_is DEATH (ev_crossover ev)))
                      <$> filtered_df) filtered_df))
  end.

Definition table_of (d : Dashboard) : list Event :=
  match d with
  | NoRecentCrossovers => []
  | Signals table _ _ => table
  end.

(** ** [StockDataFetcher.get_sp500_symbols] (lines 14-27 of data_fetcher.py) *)

(** The page is fetched and parsed outside; what the function sees is the
    table found by [soup.find('table', {'class': 'wikitable'})]: [None]
    when there is none, else its [tr] rows, each with the texts of its
    [td] cells.  Characters are code points below 256. *)

Inductive PyError := AttributeError | IndexError | OperandTypeError.

Inductive Outcome (A : Type) :=
  | Returns (a : A)
  | Fails (e : PyError).

Arguments Returns {A} a.

Arguments Fails {A} e.

(** [str.isspace] of one character. *)
Definition is_space (a : ascii) : bool :=
  let n := nat_of_ascii a in
  ((9 <=? n) && (n <=? 13))%nat || ((28 <=? n) && (n <=? 32))%nat
  || (n =? 133)%nat || (n =? 160)%nat.

Fixpoint lstrip (s : string) : string :=
  match s with
  | EmptyString => EmptyString
  | String a s' => if is_space a then lstrip s' else s
  end.

Fixpoint rstrip (s : string) : string :=
  match s with
  | EmptyString => EmptyString
  | String a s' =>
      match rstrip s' with
      | EmptyString => if is_space a then EmptyString else String a EmptyString
      | r => String a r
      end
  end.

(** [str.strip()] *)
Definition strip (s : string) : string := rstrip (lstrip s).

(** [str.replace(old, new)] for one-character [old] and [new]. *)
Fixpoint replace_char (old new : ascii) (s : string) : string :=
  match s with
  | EmptyString => EmptyString
  | String a s' =>
      String (if Ascii.eqb a old then new else a) (replace_char old new s')
  end.

(** [row.findAll('td')[0].text] *)
Definition first_cell (row : list string) : Outcome string :=
  match row with
  | td :: _ => Returns td
  | [] => Fails IndexError
  end.

(** The loop over the rows, [symbols] being the list appended to. *)
Fixpoint symbols_of_rows (rows : list (list string)) (symbols : list string)
    : Outcome (list string) :=
  match rows with
  | [] => Returns symbols
  | row :: rest =>
      match first_cell row with
      | Returns td =>
          let symbol := strip td in
          let symbol := replace_char "." "-" symbol in
          symbols_of_rows rest (symbols ++ [symbol])
      | Fails e => Fails e
      end
  end.

Definition get_sp500_symbols (table : option (list (list string)))
    : Outcome (list string) :=
  match table with
  | None => Fails AttributeError
  | Some rows => symbols_of_rows (drop 1 rows) []
  end.

(** ** [StockDataFetcher.get_stock_financials] (lines 40-85 of data_fetcher.py) *)

(** A value of the [info] dict under one of the keys read here: a number
    or [None]. *)
Inductive PyVal :=
  | PyNone
  | PyInt (z : Z)
  | PyFloat (x : float).

(** [bool(v)]: [None] and zero are false, NaN is true. *)
Definition truthy (v : PyVal) : bool :=
  match v with
  | PyNone => false
  | PyInt z => negb (z =? 0)%Z
  | PyFloat (Some q) => negb (Qeq_bool q 0)
  | PyFloat None => true
  end.

(** [d.get(key, dflt)]; [d.get(key)] is [d.get(key, None)]. *)
Definition dict_get (d : gmap string PyVal) (key : string) (dflt : PyVal) : PyVal :=
  match d !! key with
  | Some v => v
  | None => dflt
  end.

(** [v * 100]; [None * 100] is a [TypeError]. *)
Definition times_100 (v : PyVal) : Outcome PyVal :=
  match v with
  | PyNone => Fails OperandTypeError
  | PyInt z => Returns (PyInt (z * 100))
  | PyFloat x => Returns (PyFloat ((λ q, q * 100) <$> x))
  end.

(** [info.get(key, 0) * 100 if info.get(key) else 0] *)
Definition percent (info : gmap string PyVal) (key : string) : Outcome PyVal :=
  if truthy (dict_get info key PyNone)
  then times_100 (dict_get info key (PyInt 0))
  else Returns (PyInt 0).

Definition obind {A B} (o : Outcome A) (k : A → Outcome B) : Outcome B :=
  match o with
  | Returns a => k a
  | Fails e => Fails e
  end.

(** The dict of dicts, in the order it is written (the order in which the
    Overview tab shows it). *)
Definition financial_data_of (info : gmap string PyVal)
    : Outcome (list (string * list (string * PyVal))) :=
  obind (percent info "dividendYield") (λ dividend_yield,
  obind (percent info "returnOnEquity") (λ roe,
  obind (percent info "profitMargins") (λ profit_margin,
  obind (percent info "operatingMargins") (λ operating_margin,
  obind (percent info "revenueGrowth") (λ revenue_growth,
  obind (percent info "earningsGrowth") (λ earnings_growth,
  Returns
    [("General",
      [("Market Cap", dict_get info "marketCap" PyNone);
       ("Enterprise Value", dict_get info "enterpriseValue" PyNone);
       ("P/E Ratio", dict_get info "forwardPE" PyNone);
       ("PEG Ratio", dict_get info "pegRatio" PyNone);
       ("Dividend Yield", dividend_yield)]);
     ("Trading",
      [("Beta", dict_get info "beta" PyNone);
       ("52W High", dict_get info "fiftyTwoWeekHigh" PyNone);
       ("52W Low", dict_get info "fiftyTwoWeekLow" PyNone);
       ("Avg Volume", dict_get info "averageVolume" PyNone)]);
     ("Fundamentals",
      [("ROE", roe);
       ("Profit Margin", profit_margin);
       ("Operating Margin", operating_margin);
       ("Current Ratio", dict_get info "currentRatio" PyNone)]);
     ("Growth",
      [("Revenue Growth", revenue_growth);
       ("Earnings Growth", earnings_growth)])])))))).

(** What [yf.Ticker(symbol)] gives: some access raises, or the [info]
    dict and the four tables (each possibly [None]), of a type left open. *)
Inductive Ticker (S : Type) :=
  | TickerRaises
  | TickerData (info : gmap string PyVal)
      (balance_sheet income_stmt cashflow institutional_holders : option S).

Arguments TickerRaises {S}.

Arguments TickerData {S} info balance_sheet income_stmt cashflow institutional_holders.

(** The [try] block and its [except]: any exception gives five [None]. *)
Definition get_stock_financials {S} (stock : Ticker S)
    : option (list (string * list (string * PyVal)))
      * option S * option S * option S * option S :=
  match stock with
  | TickerRaises => (None, None, None, None, None)
  | TickerData info balance_sheet income_stmt cash_flow holders =>
      match financial_data_of info with
      | Returns financial_data =>
          (Some financial_data, holders, balance_sheet, income_stmt, cash_flow)
      | Fails _ => (None, None, None, None, None)
      end
  end.

(** ** The cumulative returns of the Charts tab (lines 267-268 of main.py) *)

(** A quotient of two closes may be infinite: a float of this
    computation is a rational, an infinity with its sign, or NaN. *)
Inductive xfloat :=
  | Finite (q : Q)
  | Infinite (negative : bool)
  | XNaN.

(** [x / y] on two numbers: a zero divisor gives an infinity with the
    sign of [x], and [0 / 0] is NaN. *)
Definition xdiv (x y : Q) : xfloat :=
  if Qeq_bool y 0
  then (if Qeq_bool x 0 then XNaN else Infinite (Qlt_bool x 0))
  else Finite (x / y).

(** [a - c] and [c + a] for a number [c] *)
Definition xsub (a : xfloat) (c : Q) : xfloat :=
  match a with
  | Finite q => Finite (q - c)
  | _ => a
  end.

Definition xadd (c : Q) (a : xfloat) : xfloat :=
  match a with
  | Finite q => Finite (c + q)
  | _ => a
  end.

Definition xmul (a b : xfloat) : xfloat :=
  match a, b with
  | Finite p, Finite q => Finite (p * q)
  | Finite p, Infinite s | Infinite s, Finite p =>
      if Qeq_bool p 0 then XNaN else Infinite (xorb s (Qlt_bool p 0))
  | Infinite s, Infinite t => Infinite (xorb s t)
  | XNaN, _ | _, XNaN => XNaN
  end.

Definition isna (a : xfloat) : bool :=
  match a with
  | XNaN => true
  | _ => false
  end.

(** [Series.pct_change()] of a column without NaN:
    [data / data.shift(1) - 1]. *)
Definition pct_change (data : list Q) : list xfloat :=
  zip_with (λ x prev, xsub (match prev with
                            | Some p => xdiv x p
                            | None => XNaN
                            end) 1)
           data (shift1 (Some <$> data)).

(** [np.cumprod]: the running product, starting with the first value. *)
Fixpoint np_cumprod_from (acc : xfloat) (vals : list xfloat) : list xfloat :=
  match vals with
  | [] => []
  | v :: vals => let acc := xmul acc v in acc :: np_cumprod_from acc vals
  end.

Definition np_cumprod (vals : list xfloat) : list xfloat :=
  match vals with
  | [] => []
  | v :: vals => v :: np_cumprod_from v vals
  end.

(** [Series.cumprod()], which skips NaN: the NaN cells count as 1 in the
    running product and are NaN in the result. *)
Definition cumprod (values : list xfloat) : list xfloat :=
  let mask := isna <$> values in
  let vals := (λ v, if isna v then Finite 1 else v) <$> values in
  zip_with (λ (m : bool) r, if m then XNaN else r) mask (np_cumprod vals).

(** [(1 + df['Close'].pct_change()).cumprod()] *)
Definition cumulative_returns (closes : list Q) : list xfloat :=
  cumprod (xadd 1 <$> pct_change closes).

(** ** [StockApp.show_stocks_list] (lines 166-202 of main.py) *)

(** The traces added to the figure, with the arguments they are given. *)
Inductive Trace :=
  | Candlestick (x : list Z) (open high low close : Column) (name : string)
  | Scatter (x : list Z) (y : Column) (name : string) (color : string).

(** An exception of pandas, or of Python itself. *)
Inductive Fault :=
  | LibraryError (e : Exn)
  | BuiltinError (e : PyError).

(** The page for the symbol the select box returns ([None] when there is
    no symbol to choose): the chart drawn, if any.  [df] is used as
    [calculate_indicators] returns it, without a check for [None]. *)
Definition show_stocks_list (provider : string → Fetch)
    (ema_period sma_period : nat) (selected_symbol : option string)
    : World → (Fault + option (list Trace)) * World :=
  λ w,
  match selected_symbol with
  | None => (inr None, w)
  | Some symbol =>
      if bool_decide (symbol = "") then (inr None, w)
      else
        match fetch_stock_data provider symbol w with
        | (Raise e, w) => (inl (LibraryError e), w)
        | (Ok None, w) => (inr None, w)
        | (Ok (Some df), w) =>
            match calculate_indicators (Some df) ema_period sma_period w with
            | (Raise e, w) => (inl (LibraryError e), w)
            | (Ok None, w) => (inl (BuiltinError AttributeError), w)
            | (Ok (Some df), w) =>
                match frames w !! df with
                | None => (inl (LibraryError (KeyError "df")), w)
                | Some fr =>
                    let fig :=
                      rbind (frame_getitem fr "Open") (λ open,
                      rbind (frame_getitem fr "High") (λ high,
                      rbind (frame_getitem fr "Low") (λ low,
                      rbind (frame_getitem fr "Close") (λ close,
                      rbind (frame_getitem fr (ema_name ema_period)) (λ ema,
                      rbind (frame_getitem fr (sma_name sma_period)) (λ sma,
                      Ok [Candlestick (index fr) open high low close "OHLC";
                          Scatter (index fr) ema (ema_name ema_period) "orange";
                          Scatter (index fr) sma (sma_name sma_period) "blue"]))))))
                    in
                    match fig with
                    | Ok fig => (inr (Some fig), w)
                    | Raise e => (inl (LibraryError e), w)
                    end
                end
            end
        end
  end.

(** * Notions used to state the properties *)

(** The frame [calculate_indicators] leaves behind: three columns
    assigned, in the order of the source. *)
Definition with_indicators (fr : DataFrame) (xs : list float) (e s : nat) : DataFrame :=
  let ema := ewm_mean (alpha_of_span e) xs in
  let sma := rolling_mean s xs in
  mkFrame (index fr)
    (<["Crossover" := Labels (crossover ema sma)]>
       (<[sma_name s := Floats sma]>
          (<[ema_name e := Floats ema]> (columns fr)))).

(** The state of the rolling mean describes the window [values[a:b]]. *)
Definition describes (st : nat * Q) (window : list float) : Prop :=
  st.1 = length (observed window) ∧ st.2 == Qsum (observed window).

Definition window_of (window : nat) (values : list float) (i : nat) : list float :=
  slice values (win_start window i) (win_end i).

(** The label of a row, from the two averages on the row and on the one
    before ([pe], [ps]: NaN on the first row). *)
Definition cross_at (pe ps e s : float) : Signal :=
  if fgt e s && fle pe ps then GOLDEN
  else if flt e s && fge pe ps then DEATH
  else NONE.

(** The value a series holds on the row before [t], NaN when there is
    none: what [shift(1)] puts on row [t]. *)
Definition prev (l : list float) (t : nat) : float :=
  match t with
  | O => None
  | S t' => mjoin (l !! t')
  end.

(** EMA above SMA on row [t], not above it on the row before. *)
Definition crosses_up (ps : PriceSeries) (e s t : nat) : Prop :=
  ∃ a b a' b',
    (1 ≤ t)%nat ∧
    EMA ps e s t = Some (Some a) ∧ SMA ps e s t = Some (Some b) ∧
    EMA ps e s (t - 1) = Some (Some a') ∧ SMA ps e s (t - 1) = Some (Some b') ∧
    b < a ∧ a' <= b'.

(** EMA below SMA on row [t], not below it on the row before. *)
Definition crosses_down (ps : PriceSeries) (e s t : nat) : Prop :=
  ∃ a b a' b',
    (1 ≤ t)%nat ∧
    EMA ps e s t = Some (Some a) ∧ SMA ps e s t = Some (Some b) ∧
    EMA ps e s (t - 1) = Some (Some a') ∧ SMA ps e s (t - 1) = Some (Some b') ∧
    a < b ∧ b' <= a'.

(** How the EMA stands to the SMA on a row. *)
Inductive Rel := Above | Below | Tie | Undef.

Definition rel_of (e s : float) : Rel :=
  match e, s with
  | Some a, Some b =>
      if Qlt_bool b a then Above else if Qlt_bool a b then Below else Tie
  | _, _ => Undef
  end.

(** The label of a row, from how the averages stood before and stand now. *)
Definition step (p c : Rel) : Signal :=
  match c, p with
  | Above, (Below | Tie) => GOLDEN
  | Below, (Above | Tie) => DEATH
  | _, _ => NONE
  end.

Fixpoint classify (p : Rel) (rs : list Rel) : list Signal :=
  match rs with
  | [] => []
  | r :: rs' => step p r :: classify r rs'
  end.

(** The detected events of a column of labels, in row order. *)
Definition detected (l : list Signal) : list Signal := filter (λ c, c ≠ NONE) l.

Definition count_of (c : Signal) (l : list Signal) : nat :=
  length (filter (λ x, x = c) l).

(** No two consecutive events have the same direction. *)
Fixpoint alternates (l : list Signal) : Prop :=
  match l with
  | x :: (y :: _) as tl => x ≠ y ∧ alternates tl
  | _ => True
  end.

Definition strict (r : Rel) : Prop := r = Above ∨ r = Below.

(** What a sequence of events may start with, given how the averages
    stood before it. *)
Definition opens_after (p : Rel) (evs : list Signal) : Prop :=
  match evs with
  | [] => True
  | x :: _ => (p = Above → x = DEATH) ∧ (p = Below → x = GOLDEN)
  end.

(** The event of row [i] of a price series with its indicators. *)
Definition row_event (symbol : string) (ps : PriceSeries) (e s i : nat)
    : option Event :=
  match ps !! i, EMA ps e s i, SMA ps e s i, Crossover ps e s i with
  | Some p, Some ema, Some sma, Some c =>
      Some (mkEvent symbol (Label c) (Float (Some (close p))) (date p)
                    (Float ema) (Float sma))
  | _, _, _, _ => None
  end.

(** Every column has one cell per row. *)
Definition well_formed (df : DataFrame) : Prop :=
  ∀ k c, columns df !! k = Some c → col_length c = length (index df).

(** The fetch of a symbol fails: the provider raises, or hands over an
    empty history. *)
Definition fetch_fails (provider : string → Fetch) (symbol : string) : Prop :=
  provider symbol = FetchRaises ∨ provider symbol = History [].

Definition progress_values (total i k : nat) : list Q :=
  (λ j, Qnat (j + 1) / Qnat total) <$> seq i k.

(** Most recent first. *)
Definition date_desc (a b : Event) : Prop := (ev_date b ≤ ev_date a)%Z.

(** The order the specification asks for: by date descending, and by
    symbol ascending among events of one date. *)
Definition date_then_symbol (l : list Event) : Prop :=
  ∀ i j a b, (i < j)%nat → l !! i = Some a → l !! j = Some b →
    (ev_date b ≤ ev_date a)%Z ∧
    (ev_date a = ev_date b → String.leb (ev_symbol a) (ev_symbol b) = true).

Definition day (d : Z) (c : Q) : PricePoint := mkPoint d c c c c 0.

Definition signal_event (symbol : string) (d : Z) (c : Signal) : Event :=
  mkEvent symbol (Label c) (Float None) d (Float None) (Float None).

Definition demo_provider (symbol : string) : Fetch :=
  if String.eqb symbol "AAA" then History [day 1 10; day 2 12; day 3 11; day 4 13]
  else if String.eqb symbol "BBB" then FetchRaises
  else if String.eqb symbol "CCC" then History []
  else History [day 1 10; day 2 12; day 3 9; day 4 13].

Definition swap_AB (ev : Event) : Event :=
  mkEvent (if String.eqb (ev_symbol ev) "A" then "B" else "A")
          (ev_crossover ev) (ev_price ev) (ev_date ev) (ev_ema ev) (ev_sma ev).

(** A row on which the averages are equal, or one of them is NaN. *)
Definition calm (r : Rel) : Prop := r = Tie ∨ r = Undef.

(** An event with a direction: its Crossover cell is GOLDEN or DEATH. *)
Definition directional (ev : Event) : Prop :=
  ev_crossover ev = Label GOLDEN ∨ ev_crossover ev = Label DEATH.

(** The character occurs in the string. *)
Fixpoint occurs (c : ascii) (s : string) : Prop :=
  match s with
  | EmptyString => False
  | String a s' => a = c ∨ occurs c s'
  end.

(** What [get_sp500_symbols] makes of the text of a cell. *)
Definition normalize (td : string) : string := replace_char "." "-" (strip td).

(** The value of a percentage metric, in closed form. *)
Definition percent_value (v : option PyVal) : PyVal :=
  match v with
  | None | Some PyNone => PyInt 0
  | Some (PyInt z) => PyInt (z * 100)
  | Some (PyFloat (Some q)) => if Qeq_bool q 0 then PyInt 0 else PyFloat (Some (q * 100))
  | Some (PyFloat None) => PyFloat None
  end.

(** The cumulative returns after the first row, as one pass over the
    closes: [acc] is the running product and [prev] the close before. *)
Fixpoint cum_from (acc : xfloat) (prev : Q) (rest : list Q) : list xfloat :=
  match rest with
  | [] => []
  | x :: rest =>
      let v := xadd 1 (xsub (xdiv x prev) 1) in
      let acc := xmul acc (if isna v then Finite 1 else v) in
      (if isna v then XNaN else acc) :: cum_from acc x rest
  end.

(** ** Notions for the kernels in binary64 *)

(** A float that is neither NaN nor infinite. *)
Definition finite (x : Binary64.f64) : Prop := PrimFloat.is_finite x = true.

(** The decimal [m / 10^k] as a float: one correctly rounded division of
    two exact integers, the float a decimal literal denotes. *)
Definition dec (m : Z) (k : nat) : Binary64.f64 :=
  (Binary64.of_Z m / Binary64.of_Z (10 ^ Z.of_nat k))%f64.

(** The rational number a finite float is. *)
Definition to_Q (x : Binary64.f64) : option Q :=
  match FloatOps.Prim2SF x with
  | SpecFloat.S754_zero _ => Some 0
  | SpecFloat.S754_finite s m e =>
      let v := if (0 <=? e)%Z then inject_Z (Z.pos m * 2 ^ e)
               else Z.pos m # Pos.pow 2 (Z.to_pos (- e)) in
      Some (if s then - v else v)
  | _ => None
  end.

(** What the [ewm] kernel makes of the previous average and a close that
    is a number, when the weight of the past is 1: the close after a NaN
    average, the average itself when the close equals it, and otherwise
    the weighted mean, each operation rounded. *)
Definition ewm_next (com prev c : Binary64.f64) : Binary64.f64 :=
  let alpha := (1 / (1 + com))%f64 in
  if Binary64.isnan prev then c
  else if (prev =? c)%f64 then prev
  else
    let old_wt := (1 * (1 - alpha))%f64 in
    let new_wt := if (com =? 1)%f64 then (1 - old_wt)%f64 else alpha in
    ((old_wt * prev + new_wt * c) / (old_wt + new_wt))%f64.

(** The recurrence [a*close + (1-a)*prev] with [a = 2/(span+1)], each
    operation rounded. *)
Definition recurrence_f64 (span : nat) (prev c : Binary64.f64) : Binary64.f64 :=
  let a := (2 / (Binary64.of_nat span + 1))%f64 in
  (a * c + (1 - a) * prev)%f64.




(** * Properties *)

(** ** Column names *)

Lemma ema_name_ne_close e : ema_name e ≠ "Close".
Proof. unfold ema_name. simpl. discriminate. Qed.

Lemma sma_name_ne_close s : sma_name s ≠ "Close".
Proof. unfold sma_name. simpl. discriminate. Qed.

Lemma ema_name_ne_sma e s : ema_name e ≠ sma_name s.
Proof. unfold ema_name, sma_name. simpl. discriminate. Qed.

Lemma ema_name_ne_crossover e : ema_name e ≠ "Crossover".
Proof. unfold ema_name. simpl. discriminate. Qed.

Lemma sma_name_ne_crossover s : sma_name s ≠ "Crossover".
Proof. unfold sma_name. simpl. discriminate. Qed.

(** ** Running [calculate_indicators] *)

Lemma bind_ok {A B} (m : M A) (k : A → M B) w a w' :
  m w = (Ok a, w') → bind m k w = k a w'.
Proof. unfold bind. intros ->. reflexivity. Qed.

Lemma bind_raise {A B} (m : M A) (k : A → M B) w e w' :
  m w = (Raise e, w') → bind m k w = (Raise e, w').
Proof. unfold bind. intros ->. reflexivity. Qed.

Lemma getitem_ok l key w df c :
  frames w !! l = Some df → columns df !! key = Some c →
  getitem l key w = (Ok c, w).
Proof. unfold getitem. intros -> ->. reflexivity. Qed.

Lemma setitem_ok l key c w df :
  frames w !! l = Some df →
  setitem l key c w = (Ok (), set_frame l (set_column key c df) w).
Proof. unfold setitem. intros ->. reflexivity. Qed.

Lemma frames_set_frame l df w : frames (set_frame l df w) !! l = Some df.
Proof. apply lookup_insert_eq. Qed.

Lemma set_frame_twice l df df' w :
  set_frame l df (set_frame l df' w) = set_frame l df w.
Proof. unfold set_frame. cbn. by rewrite insert_insert_eq. Qed.

Lemma calculate_indicators_run l fr xs e s w :
  frames w !! l = Some fr →
  frame_empty fr = false →
  columns fr !! "Close" = Some (Floats xs) →
  (1 ≤ e)%nat →
  calculate_indicators (Some l) e s w
  = (Ok (Some l), set_frame l (with_indicators fr xs e s) w).
Proof.
  intros Hl Hne Hclose He.
  unfold calculate_indicators. rewrite Hl, Hne.
  assert (Hspan : (e <? 1)%nat = false) by (apply Nat.ltb_ge; lia).
  rewrite (bind_ok _ _ _ _ _ (getitem_ok _ _ _ _ _ Hl Hclose)).
  unfold ewm_span_mean, rolling_window_mean, lift at 1.
  rewrite Hspan. cbn [numeric]. unfold bind at 1.
  rewrite (bind_ok _ _ _ _ _ (setitem_ok _ _ _ _ _ Hl)).
  set (fr1 := set_column (ema_name e) _ fr).
  assert (Hc1 : columns fr1 !! "Close" = Some (Floats xs)).
  { cbn. rewrite lookup_insert_ne by apply ema_name_ne_close. done. }
  rewrite (bind_ok _ _ _ _ _ (getitem_ok _ _ _ _ _ (frames_set_frame _ _ _) Hc1)).
  unfold lift at 1, bind at 1. cbn [numeric].
  rewrite (bind_ok _ _ _ _ _ (setitem_ok _ _ _ _ _ (frames_set_frame _ _ _))).
  rewrite set_frame_twice.
  set (fr2 := set_column (sma_name s) _ fr1).
  assert (He2 : columns fr2 !! ema_name e
                = Some (Floats (ewm_mean (alpha_of_span e) xs))).
  { cbn. rewrite lookup_insert_ne by (apply not_eq_sym, ema_name_ne_sma).
    apply lookup_insert_eq. }
  assert (Hs2 : columns fr2 !! sma_name s = Some (Floats (rolling_mean s xs))).
  { cbn. apply lookup_insert_eq. }
  rewrite (bind_ok _ _ _ _ _ (getitem_ok _ _ _ _ _ (frames_set_frame _ _ _) He2)).
  rewrite (bind_ok _ _ _ _ _ (getitem_ok _ _ _ _ _ (frames_set_frame _ _ _) Hs2)).
  unfold crossover_column, lift at 1, bind at 1. cbn [as_floats].
  rewrite (bind_ok _ _ _ _ _ (setitem_ok _ _ _ _ _ (frames_set_frame _ _ _))).
  rewrite set_frame_twice. reflexivity.
Qed.

(** ** The frame of a price series *)

Lemma frame_of_series_close ps :
  columns (frame_of_series ps) !! "Close" = Some (Floats (closes ps)).
Proof. reflexivity. Qed.

Lemma frame_of_series_empty ps :
  frame_empty (frame_of_series ps) = bool_decide (ps = []).
Proof.
  unfold frame_empty. cbn [index columns frame_of_series].
  rewrite (bool_decide_eq_false_2 (_ = ∅)).
  2:{ intros E. apply (f_equal (lookup "Close")) in E. discriminate E. }
  rewrite orb_false_r. apply bool_decide_ext. split.
  - apply fmap_nil_inv.
  - by intros ->.
Qed.

Lemma compute_nonempty ps e s :
  ps ≠ [] → (1 ≤ e)%nat →
  compute ps e s = Some (with_indicators (frame_of_series ps) (closes ps) e s).
Proof.
  intros Hps He. unfold compute.
  rewrite (calculate_indicators_run _ (frame_of_series ps) (closes ps)).
  - cbn [returned_frame]. apply frames_set_frame.
  - reflexivity.
  - rewrite frame_of_series_empty. by apply bool_decide_eq_false_2.
  - apply frame_of_series_close.
  - done.
Qed.

Lemma compute_empty e s : compute [] e s = None.
Proof. reflexivity. Qed.

Lemma EMA_series ps e s t :
  (1 ≤ e)%nat → EMA ps e s t = ewm_mean (alpha_of_span e) (closes ps) !! t.
Proof.
  intros He. destruct (decide (ps = [])) as [->|Hps]; [done|].
  unfold EMA. rewrite compute_nonempty by done.
  unfold float_at, with_indicators; cbn [columns].
  rewrite lookup_insert_ne by (apply not_eq_sym, ema_name_ne_crossover).
  rewrite lookup_insert_ne by (apply not_eq_sym, ema_name_ne_sma).
  by rewrite lookup_insert_eq.
Qed.

Lemma SMA_series ps e s t :
  (1 ≤ e)%nat → SMA ps e s t = rolling_mean s (closes ps) !! t.
Proof.
  intros He. destruct (decide (ps = [])) as [->|Hps]; [done|].
  unfold SMA. rewrite compute_nonempty by done.
  unfold float_at, with_indicators; cbn [columns].
  rewrite lookup_insert_ne by (apply not_eq_sym, sma_name_ne_crossover).
  by rewrite lookup_insert_eq.
Qed.

Lemma Crossover_series ps e s t :
  (1 ≤ e)%nat →
  Crossover ps e s t
  = crossover (ewm_mean (alpha_of_span e) (closes ps))
              (rolling_mean s (closes ps)) !! t.
Proof.
  intros He. destruct (decide (ps = [])) as [->|Hps]; [done|].
  unfold Crossover. rewrite compute_nonempty by done.
  unfold label_at, with_indicators; cbn [columns].
  by rewrite lookup_insert_eq.
Qed.

(** ** The exponential moving average *)

Lemma Qnat_pos n : (1 ≤ n)%nat → 0 < Qnat n.
Proof.
  intros H. unfold Qnat, Qlt. simpl. lia.
Qed.

Lemma Qnat_succ_nz n : ¬ Qnat n + 1 == 0.
Proof. unfold Qnat, Qeq. simpl. lia. Qed.

Lemma alpha_of_span_eq e : alpha_of_span e == 2 / (Qnat e + 1).
Proof.
  unfold alpha_of_span, com_of_span. fold (Qnat e).
  field. apply Qnat_succ_nz.
Qed.

Lemma new_weight_fresh alpha : new_weight alpha (1 * (1 - alpha)) == alpha.
Proof.
  unfold new_weight. destruct (Qeq_bool alpha (1 # 2)); [ring|reflexivity].
Qed.

Lemma ewm_step_value alpha w x :
  (if Qeq_bool w x then w
   else (1 * (1 - alpha) * w + new_weight alpha (1 * (1 - alpha)) * x)
        / (1 * (1 - alpha) + new_weight alpha (1 * (1 - alpha))))
  == alpha * x + (1 - alpha) * w.
Proof.
  destruct (Qeq_bool w x) eqn:E.
  - apply Qeq_bool_eq in E. rewrite E. ring.
  - rewrite new_weight_fresh. field. intros H. apply Q_apart_0_1.
    rewrite <- H. ring.
Qed.

(** With every observation present the state after a row is the average
    of that row with weight 1, and each value follows from the previous
    one by the recurrence. *)
Lemma ewm_loop_recurrence alpha cs : ∀ w t c,
  cs !! t = Some c →
  ∃ y y',
    ewm_loop alpha (Some w, 1) (Some <$> cs) !! t = Some (Some y) ∧
    (Some w :: ewm_loop alpha (Some w, 1) (Some <$> cs)) !! t = Some (Some y') ∧
    y == alpha * c + (1 - alpha) * y'.
Proof.
  induction cs as [|c0 cs IH]; intros w t c Ht; [done|].
  destruct t as [|t]; cbn in Ht.
  - injection Ht as ->. eexists _, w. cbn. split_and!; [done..|].
    apply ewm_step_value.
  - destruct (IH (if Qeq_bool w c0 then w
                 else (1 * (1 - alpha) * w
                       + new_weight alpha (1 * (1 - alpha)) * c0)
                      / (1 * (1 - alpha) + new_weight alpha (1 * (1 - alpha))))
                t c Ht) as (y & y' & H1 & H2 & H3).
    exists y, y'. cbn. split_and!; done.
Qed.

(** ** The simple moving average *)

Lemma slice_app {A} (l : list A) a b c :
  (a ≤ b)%nat → (b ≤ c)%nat → slice l a c = slice l a b ++ slice l b c.
Proof.
  intros Hab Hbc. unfold slice.
  replace (c - a)%nat with ((b - a) + (c - b))%nat by lia.
  rewrite <- take_take_drop. f_equal. rewrite drop_drop. do 2 f_equal. lia.
Qed.

Lemma slice_fmap {A B} (f : A → B) (l : list A) a b :
  slice (f <$> l) a b = f <$> slice l a b.
Proof. unfold slice. by rewrite fmap_take, fmap_drop. Qed.

Lemma slice_length {A} (l : list A) a b :
  (b ≤ length l)%nat → length (slice l a b) = (b - a)%nat.
Proof. intros H. unfold slice. rewrite length_take, length_drop. lia. Qed.

Lemma observed_app l1 l2 : observed (l1 ++ l2) = observed l1 ++ observed l2.
Proof. apply omap_app. Qed.

Lemma observed_Some (cs : list Q) : observed (Some <$> cs) = cs.
Proof.
  induction cs as [|c cs IH]; [done|].
  unfold observed in *. cbn. by rewrite IH.
Qed.

Lemma Qsum_nil : Qsum [] = 0.
Proof. reflexivity. Qed.

Lemma Qsum_cons x l : Qsum (x :: l) = x + Qsum l.
Proof. reflexivity. Qed.

Lemma Qsum_app l1 l2 : Qsum (l1 ++ l2) == Qsum l1 + Qsum l2.
Proof.
  induction l1 as [|x l1 IH].
  - rewrite app_nil_l, Qsum_nil. ring.
  - rewrite <- app_comm_cons, !Qsum_cons, IH. ring.
Qed.

Lemma observed_cons_Some x l : observed (Some x :: l) = x :: observed l.
Proof. reflexivity. Qed.

Lemma observed_cons_None l : observed (None :: l) = observed l.
Proof. reflexivity. Qed.

Lemma foldl_add_mean l : ∀ st,
  (foldl add_mean st l).1 = (st.1 + length (observed l))%nat ∧
  (foldl add_mean st l).2 == st.2 + Qsum (observed l).
Proof.
  induction l as [|[x|] l IH]; intros st.
  - cbn [foldl]. change (observed []) with (@nil Q).
    split; [cbn; lia | rewrite Qsum_nil; ring].
  - cbn [foldl add_mean]. rewrite observed_cons_Some, Qsum_cons.
    destruct (IH (S st.1, st.2 + x)) as [H1 H2]. split.
    + rewrite H1. cbn. lia.
    + rewrite H2. cbn [snd]. ring.
  - cbn [foldl add_mean]. rewrite observed_cons_None. apply IH.
Qed.

Lemma foldl_remove_mean l : ∀ st,
  (foldl remove_mean st l).1 = (st.1 - length (observed l))%nat ∧
  (foldl remove_mean st l).2 == st.2 - Qsum (observed l).
Proof.
  induction l as [|[x|] l IH]; intros st.
  - cbn [foldl]. change (observed []) with (@nil Q).
    split; [cbn; lia | rewrite Qsum_nil; ring].
  - cbn [foldl remove_mean]. rewrite observed_cons_Some, Qsum_cons.
    destruct (IH (pred st.1, st.2 - x)) as [H1 H2]. split.
    + rewrite H1. cbn. lia.
    + rewrite H2. cbn [snd]. ring.
  - cbn [foldl remove_mean]. rewrite observed_cons_None. apply IH.
Qed.

Lemma roll_step_describes window values i st :
  (i = 0%nat ∨ describes st (window_of window values (i - 1))) →
  describes (roll_step window values i st) (window_of window values i).
Proof.
  intros Hprev. unfold roll_step.
  destruct ((i =? 0)%nat || (win_end (i - 1) <=? win_start window i)%nat) eqn:Hsetup.
  - destruct (foldl_add_mean (slice values (win_start window i) (win_end i))
                (0%nat, 0)) as [H1 H2].
    split; [rewrite H1; reflexivity | rewrite H2; cbn [snd]; unfold window_of; ring].
  - apply orb_false_iff in Hsetup as [Hi Hov].
    apply Nat.eqb_neq in Hi. apply Nat.leb_gt in Hov.
    destruct Hprev as [?|[Hn Hs]]; [done|].
    unfold win_start, win_end in *.
    set (removed := slice values (i - 1 + 1 - window) (i + 1 - window)).
    set (added := slice values (i - 1 + 1) (i + 1)).
    set (kept := slice values (i + 1 - window) (i - 1 + 1)).
    assert (Hold : window_of window values (i - 1) = removed ++ kept).
    { apply slice_app; lia. }
    assert (Hnew : window_of window values i = kept ++ added).
    { apply slice_app; lia. }
    rewrite Hold, observed_app in Hn, Hs. rewrite length_app in Hn.
    rewrite Qsum_app in Hs.
    destruct (foldl_remove_mean removed st) as [R1 R2].
    destruct (foldl_add_mean added (foldl remove_mean st removed)) as [A1 A2].
    unfold describes. rewrite Hnew, observed_app. split.
    + rewrite A1, R1, Hn, length_app. lia.
    + rewrite A2, R2, Hs, Qsum_app. ring.
Qed.

Lemma roll_from_lookup window minp values : ∀ n i st t,
  (i = 0%nat ∨ describes st (window_of window values (i - 1))) →
  (t < n)%nat →
  ∃ st', roll_from window minp values i n st !! t = Some (calc_mean minp st') ∧
         describes st' (window_of window values (i + t)).
Proof.
  induction n as [|n IH]; intros i st t Hprev Ht; [lia|].
  pose proof (roll_step_describes window values i st Hprev) as Hstep.
  destruct t as [|t]; cbn.
  - eexists. split; [done|]. by rewrite Nat.add_0_r.
  - destruct (IH (S i) (roll_step window values i st) t) as (st' & H1 & H2).
    + right. by rewrite Nat.sub_succ, Nat.sub_0_r.
    + lia.
    + exists st'. split; [done|]. by rewrite Nat.add_succ_r.
Qed.

Lemma rolling_mean_lookup window values t :
  (t < length values)%nat →
  ∃ st', rolling_mean window values !! t = Some (calc_mean window st') ∧
         describes st' (window_of window values t).
Proof.
  intros Ht. unfold rolling_mean.
  destruct (roll_from_lookup window window values (length values) 0 (0%nat, 0) t)
    as (st' & H1 & H2); [by left | done |].
  by exists st'.
Qed.

Lemma roll_from_length window minp values n : ∀ i st,
  length (roll_from window minp values i n st) = n.
Proof. induction n as [|n IH]; intros i st; cbn; [done|]. by rewrite IH. Qed.

Lemma rolling_mean_length window values :
  length (rolling_mean window values) = length values.
Proof. apply roll_from_length. Qed.

(** With every close present: the mean of the last [window] closes once
    there are that many, NaN before. *)
Lemma rolling_mean_defined window cs t :
  (1 ≤ window)%nat → (t < length cs)%nat → (window - 1 ≤ t)%nat →
  ∃ v, rolling_mean window (Some <$> cs) !! t = Some (Some v) ∧
       v == Qsum (slice cs (t + 1 - window) (t + 1)) / Qnat window.
Proof.
  intros Hw Ht Hge.
  destruct (rolling_mean_lookup window (Some <$> cs) t) as (st & Hlk & Hn & Hs).
  { by rewrite length_fmap. }
  unfold window_of, win_start, win_end in Hn, Hs.
  rewrite slice_fmap, observed_Some in Hn, Hs.
  rewrite slice_length in Hn by lia.
  assert (Hnobs : st.1 = window) by lia.
  exists (st.2 / Qnat window). split.
  - etrans; [exact Hlk|]. unfold calc_mean. rewrite Hnobs.
    rewrite (proj2 (Nat.leb_le _ _)) by lia.
    rewrite (proj2 (Nat.ltb_lt _ _)) by lia.
    reflexivity.
  - rewrite Hs. reflexivity.
Qed.

Lemma rolling_mean_undefined window cs t :
  (t < length cs)%nat → (t < window - 1)%nat →
  rolling_mean window (Some <$> cs) !! t = Some None.
Proof.
  intros Ht Hlt.
  destruct (rolling_mean_lookup window (Some <$> cs) t) as (st & Hlk & Hn & Hs).
  { by rewrite length_fmap. }
  unfold window_of, win_start, win_end in Hn.
  rewrite slice_fmap, observed_Some in Hn.
  rewrite slice_length in Hn by lia.
  etrans; [exact Hlk|]. unfold calc_mean.
  rewrite (proj2 (Nat.leb_gt _ _)) by lia. done.
Qed.

(** ** The crossover column, row by row *)

Lemma Qlt_bool_iff x y : Qlt_bool x y = true ↔ x < y.
Proof.
  unfold Qlt_bool. rewrite negb_true_iff. split.
  - intros H. apply Qnot_le_lt. intros Hle.
    apply Qle_bool_iff in Hle. congruence.
  - intros H. destruct (Qle_bool y x) eqn:E; [|done].
    apply Qle_bool_iff in E. by apply Qlt_not_le in H.
Qed.

Lemma shift1_lookup l t x :
  l !! t = Some x → shift1 l !! t = Some (prev l t).
Proof.
  intros Hx. pose proof (lookup_lt_Some _ _ _ Hx) as Hlt.
  unfold shift1. rewrite lookup_take_lt by done.
  destruct t as [|t]; [done|].
  change (l !! t = Some (mjoin (l !! t))).
  destruct (l !! t) as [y|] eqn:Hy; [done|].
  apply lookup_ge_None in Hy. lia.
Qed.

Lemma crossover_lookup ema sma t e s :
  ema !! t = Some e → sma !! t = Some s →
  crossover ema sma !! t = Some (cross_at (prev ema t) (prev sma t) e s).
Proof.
  intros He Hs. unfold crossover, np_where, series_and, series_cmp, np_full.
  rewrite !lookup_zip_with.
  rewrite He, Hs, (shift1_lookup _ _ _ He), (shift1_lookup _ _ _ Hs).
  rewrite lookup_replicate_2 by (by eapply lookup_lt_Some).
  cbn. unfold cross_at.
  destruct (fgt e s && fle (prev ema t) (prev sma t)); [done|].
  by destruct (flt e s && fge (prev ema t) (prev sma t)).
Qed.

Lemma cross_at_golden pe ps e s :
  cross_at pe ps e s = GOLDEN ↔
  ∃ a b a' b', e = Some a ∧ s = Some b ∧ pe = Some a' ∧ ps = Some b' ∧
               b < a ∧ a' <= b'.
Proof.
  unfold cross_at. split.
  - destruct (fgt e s && fle pe ps) eqn:E.
    + intros _. apply andb_true_iff in E as [E1 E2].
      destruct e as [a|], s as [b|]; try done.
      destruct pe as [a'|], ps as [b'|]; try done.
      exists a, b, a', b'. cbn in E1, E2.
      apply Qlt_bool_iff in E1. apply Qle_bool_iff in E2. done.
    + by destruct (flt e s && fge pe ps).
  - intros (a & b & a' & b' & -> & -> & -> & -> & H1 & H2). cbn.
    apply Qlt_bool_iff in H1. apply Qle_bool_iff in H2. by rewrite H1, H2.
Qed.

Lemma cross_at_death pe ps e s :
  cross_at pe ps e s = DEATH ↔
  ∃ a b a' b', e = Some a ∧ s = Some b ∧ pe = Some a' ∧ ps = Some b' ∧
               a < b ∧ b' <= a'.
Proof.
  unfold cross_at. split.
  - destruct (fgt e s && fle pe ps) eqn:E; [done|].
    destruct (flt e s && fge pe ps) eqn:E'; [|done].
    intros _. apply andb_true_iff in E' as [E1 E2].
    destruct e as [a|], s as [b|]; try done.
    destruct pe as [a'|], ps as [b'|]; try done.
    exists a, b, a', b'. cbn in E1, E2.
    apply Qlt_bool_iff in E1. apply Qle_bool_iff in E2. done.
  - intros (a & b & a' & b' & -> & -> & -> & -> & H1 & H2). cbn.
    assert (Qlt_bool b a = false) as ->.
    { destruct (Qlt_bool b a) eqn:E; [|done].
      apply Qlt_bool_iff in E. exfalso. eapply Qlt_irrefl, Qlt_trans; eauto. }
    apply Qlt_bool_iff in H1. apply Qle_bool_iff in H2.
    cbn. by rewrite H1, H2.
Qed.

(** ** The indicator series *)

Lemma closes_fmap ps : closes ps = Some <$> (close <$> ps).
Proof. unfold closes. by rewrite <- list_fmap_compose. Qed.

Lemma closes_lookup ps t p : ps !! t = Some p → closes ps !! t = Some (Some (close p)).
Proof. intros H. unfold closes. by rewrite list_lookup_fmap, H. Qed.

Lemma closes_length ps : length (closes ps) = length ps.
Proof. apply length_fmap. Qed.

Lemma ewm_mean_length alpha vals : length (ewm_mean alpha vals) = length vals.
Proof.
  destruct vals as [|v0 rest]; [done|]. cbn. f_equal.
  generalize (v0, 1). induction rest as [|c rest IH]; intros st; cbn; [done|].
  by rewrite IH.
Qed.

(** In exact arithmetic the EMA column starts at the first close and on
    every later row follows from the previous one by
    [EMA[t] = a*close[t] + (1-a)*EMA[t-1]], with [a = 2/(emaPeriod+1)]. *)
Lemma ema_recurrence_exact (ps : PriceSeries) (e s : nat) :
  (1 ≤ e)%nat →
  (∀ p0, ps !! 0%nat = Some p0 → EMA ps e s 0 = Some (Some (close p0))) ∧
  (∀ t p, (1 ≤ t)%nat → ps !! t = Some p →
     ∃ y y', EMA ps e s t = Some (Some y) ∧
             EMA ps e s (t - 1) = Some (Some y') ∧
             y == 2 / (Qnat e + 1) * close p
                  + (1 - 2 / (Qnat e + 1)) * y').
Proof.
  intros He. split.
  - intros p0 Hp0. rewrite EMA_series by done.
    destruct ps as [|p ps]; [done|]. injection Hp0 as ->. reflexivity.
  - intros t p Ht Hp. rewrite !EMA_series by done.
    destruct ps as [|p0 ps]; [done|]. destruct t as [|t]; [lia|].
    change (ps !! t = Some p) in Hp. rewrite Nat.sub_succ, Nat.sub_0_r.
    assert (Hc : (close <$> ps) !! t = Some (close p))
      by (by rewrite list_lookup_fmap, Hp).
    destruct (ewm_loop_recurrence (alpha_of_span e) (close <$> ps)
                (close p0) t (close p) Hc) as (y & y' & H1 & H2 & H3).
    exists y, y'. rewrite closes_fmap. cbn. split_and!; [done..|].
    rewrite H3, alpha_of_span_eq. reflexivity.
Qed.

(** In binary64. *)

Lemma finite_not_nan c : finite c → (c =? c)%f64 = true.
Proof.
  unfold finite, PrimFloat.is_finite, PrimFloat.is_nan.
  destruct (PrimFloat.eqb c c); [done|]. cbn. discriminate.
Qed.

Lemma finite_not_inf c : finite c → Binary64.isinf c = false.
Proof.
  unfold finite, PrimFloat.is_finite, Binary64.isinf.
  destruct (PrimFloat.is_infinity c); [|done].
  rewrite orb_true_r. cbn. discriminate.
Qed.

Lemma prep_values_finite values :
  Forall finite values → Binary64.prep_values values = values.
Proof.
  induction 1 as [|c values Hc _ IH]; [done|].
  unfold Binary64.prep_values in *. cbn [fmap list_fmap].
  rewrite (finite_not_inf c Hc). by f_equal.
Qed.

Lemma ewm_step_next com w c :
  (c =? c)%f64 = true →
  Binary64.ewm_step com (1 / (1 + com))%f64 (w, 1%f64) c
  = (ewm_next com w c, 1%f64).
Proof.
  intros Hc. unfold Binary64.ewm_step, ewm_next, Binary64.isnan. rewrite Hc.
  destruct (PrimFloat.eqb w w); cbn [negb]; [|done].
  by destruct (PrimFloat.eqb w c).
Qed.

Lemma ewm_loop_next com rest :
  Forall finite rest →
  ∀ w t prev c,
    (w :: Binary64.ewm_loop com (1 / (1 + com))%f64 (w, 1%f64) rest) !! t
    = Some prev →
    rest !! t = Some c →
    Binary64.ewm_loop com (1 / (1 + com))%f64 (w, 1%f64) rest !! t
    = Some (ewm_next com prev c).
Proof.
  induction 1 as [|a rest Ha _ IH]; intros w t prev c Hprev Hc; [done|].
  cbn [Binary64.ewm_loop] in *.
  rewrite (ewm_step_next com w a (finite_not_nan a Ha)) in *. cbn [fst] in *.
  destruct t as [|t].
  - injection Hprev as ->. injection Hc as ->. done.
  - exact (IH _ t prev c Hprev Hc).
Qed.

(** C2 (as the code has it).  On a series of finite closes the EMA column
    starts at the first close, and every later value follows from the
    previous one and the close of the row by one step of the kernel: the
    previous value itself when the close equals it, and otherwise
    [((1-a)*EMA[t-1] + a*close[t]) / ((1-a) + a)] with
    [a = 1/(1 + (emaPeriod-1)/2)], each operation rounded to binary64.  In
    exact arithmetic that is the recurrence
    [EMA[t] = a*close[t] + (1-a)*EMA[t-1]] with [a = 2/(emaPeriod+1)]. *)
Theorem ema_kernel_recurrence (e : nat) :
  (1 ≤ e)%nat →
  (∀ closes : list Binary64.f64, Forall finite closes →
     Binary64.ewm_mean e closes !! 0%nat = closes !! 0%nat ∧
     ∀ t prev c,
       Binary64.ewm_mean e closes !! t = Some prev →
       closes !! S t = Some c →
       Binary64.ewm_mean e closes !! S t
       = Some (ewm_next (Binary64.com_of_span e) prev c)) ∧
  (∀ (ps : PriceSeries) (s : nat),
     (∀ p0, ps !! 0%nat = Some p0 → EMA ps e s 0 = Some (Some (close p0))) ∧
     (∀ t p, (1 ≤ t)%nat → ps !! t = Some p →
        ∃ y y', EMA ps e s t = Some (Some y) ∧
                EMA ps e s (t - 1) = Some (Some y') ∧
                y == 2 / (Qnat e + 1) * close p
                     + (1 - 2 / (Qnat e + 1)) * y')).
Proof.
  intros He. split.
  - intros closes Hfin. unfold Binary64.ewm_mean.
    rewrite (prep_values_finite closes Hfin).
    destruct Hfin as [|v0 rest _ Hrest]; [done|].
    unfold Binary64.ewm. split; [done|].
    intros t prev c Hprev Hc. exact (ewm_loop_next _ rest Hrest v0 t prev c Hprev Hc).
  - intros ps s. by apply ema_recurrence_exact.
Qed.

Lemma ema_kernel_recurrence_witness :
  (1 ≤ 4)%nat ∧
  Binary64.ewm_mean 4 [1; 6; 3]%f64 !! 2%nat
  = Some (ewm_next (Binary64.com_of_span 4)
            (ewm_next (Binary64.com_of_span 4) 1 6) 3)%f64.
Proof.
  split; [lia|].
  assert (Hfin : Forall finite [1; 6; 3]%f64).
  { repeat (apply Forall_cons_2; [reflexivity|]). apply Forall_nil_2. }
  apply (proj2 (proj1 (ema_kernel_recurrence 4 ltac:(lia)) [1; 6; 3]%f64 Hfin)
           1%nat); [|reflexivity].
  apply (proj2 (proj1 (ema_kernel_recurrence 4 ltac:(lia)) [1; 6; 3]%f64 Hfin)
           0%nat); reflexivity.
Defined.

(** With span 3 the centre of mass is 1 and the weight of a close that
    follows a NaN is [1 - old_wt]: the closes 1, NaN, 4, 6 give 1, 1,
    3.25, 4.625, in exact arithmetic and in binary64. *)
Example ewm_mean_after_nan :
  (λ x : float, Qred <$> x) <$>
    ewm_mean (alpha_of_span 3) [Some 1; None; Some 4; Some 6]
  = [Some 1; Some 1; Some (13 # 4); Some (37 # 8)] ∧
  Binary64.ewm_mean 3 [1; Binary64.NaN; 4; 6]%f64
  = [1; 1; dec 325 2; dec 4625 3]%f64.
Proof. split; vm_compute; reflexivity. Qed.

(** C2, refuted as stated.  With period 4 the EMA of the closes 1, 6 on
    row 1 is the float next above 3, not [a*6 + (1-a)*1 = 3]; and read
    with rounded operations the recurrence fails where the kernel keeps
    an average equal to the close: for the closes 118.79, 118.79 and
    period 28 the EMA is 118.79 and the rounded recurrence is not. *)
Lemma ema_recurrence_fails_with_rounding :
  (∃ y q, Binary64.ewm_mean 4 [1; 6]%f64 !! 1%nat = Some y ∧
          to_Q y = Some q ∧
          ¬ q == 2 / (Qnat 4 + 1) * 6 + (1 - 2 / (Qnat 4 + 1)) * 1) ∧
  (∃ y, Binary64.ewm_mean 28 [dec 11879 2; dec 11879 2] !! 1%nat = Some y ∧
        y = dec 11879 2 ∧
        (y =? recurrence_f64 28 (dec 11879 2) (dec 11879 2))%f64 = false).
Proof.
  split.
  - eexists _, _. split; [vm_compute; reflexivity|].
    split; [vm_compute; reflexivity|]. vm_compute. discriminate.
  - eexists. split; [vm_compute; reflexivity|].
    split; vm_compute; reflexivity.
Qed.


(** In binary64. *)
















Lemma prev_Some l t a :
  prev l t = Some a ↔ (1 ≤ t)%nat ∧ l !! (t - 1)%nat = Some (Some a).
Proof.
  destruct t as [|t]; cbn [prev].
  - split; [done | intros [? _]; lia].
  - rewrite Nat.sub_succ, Nat.sub_0_r. split.
    + intros H. split; [lia|]. by destruct (l !! t) as [[?|]|]; simplify_eq/=.
    + by intros [_ ->].
Qed.

Lemma Crossover_cross_at ps e s t :
  (1 ≤ e)%nat → (t < length ps)%nat →
  ∃ x y,
    EMA ps e s t = Some x ∧ SMA ps e s t = Some y ∧
    Crossover ps e s t
    = Some (cross_at (prev (ewm_mean (alpha_of_span e) (closes ps)) t)
                     (prev (rolling_mean s (closes ps)) t) x y).
Proof.
  intros He Ht. rewrite EMA_series, SMA_series, Crossover_series by done.
  destruct (lookup_lt_is_Some_2 (ewm_mean (alpha_of_span e) (closes ps)) t)
    as [x Hx]; [by rewrite ewm_mean_length, closes_length|].
  destruct (lookup_lt_is_Some_2 (rolling_mean s (closes ps)) t)
    as [y Hy]; [by rewrite rolling_mean_length, closes_length|].
  exists x, y. split_and!; [done..|]. by apply crossover_lookup.
Qed.

(** C1.  On every row [t] of the series the label is GOLDEN iff
    [EMA[t] > SMA[t]] and [EMA[t-1] <= SMA[t-1]], DEATH iff
    [EMA[t] < SMA[t]] and [EMA[t-1] >= SMA[t-1]], and NONE otherwise; it is
    NONE on row 0 and on every row where the SMA of the row or of the row
    before is NaN. *)
Theorem crossover_classification (ps : PriceSeries) (e s t : nat) :
  (1 ≤ e)%nat → (1 ≤ s)%nat → (t < length ps)%nat →
  ∃ c, Crossover ps e s t = Some c ∧
       (c = GOLDEN ↔ crosses_up ps e s t) ∧
       (c = DEATH ↔ crosses_down ps e s t) ∧
       (c = NONE ↔ ¬ crosses_up ps e s t ∧ ¬ crosses_down ps e s t) ∧
       (t = 0%nat → c = NONE) ∧
       (SMA ps e s t = Some None → c = NONE) ∧
       ((1 ≤ t)%nat → SMA ps e s (t - 1) = Some None → c = NONE).
Proof.
  intros He _ Ht.
  destruct (Crossover_cross_at ps e s t He Ht) as (x & y & Hx & Hy & Hc).
  set (pe := prev (ewm_mean (alpha_of_span e) (closes ps)) t) in *.
  set (psm := prev (rolling_mean s (closes ps)) t) in *.
  assert (Hup : cross_at pe psm x y = GOLDEN ↔ crosses_up ps e s t).
  { rewrite cross_at_golden. unfold crosses_up.
    rewrite Hx, Hy, !EMA_series, !SMA_series by done. split.
    - intros (a & b & a' & b' & -> & -> & Hpe & Hps & H1 & H2).
      apply prev_Some in Hpe as [Hge Hpe]. apply prev_Some in Hps as [_ Hps].
      exists a, b, a', b'. done.
    - intros (a & b & a' & b' & Hge & [= ->] & [= ->] & Hpe & Hps & H1 & H2).
      exists a, b, a', b'. split_and!; try done; by apply prev_Some. }
  assert (Hdown : cross_at pe psm x y = DEATH ↔ crosses_down ps e s t).
  { rewrite cross_at_death. unfold crosses_down.
    rewrite Hx, Hy, !EMA_series, !SMA_series by done. split.
    - intros (a & b & a' & b' & -> & -> & Hpe & Hps & H1 & H2).
      apply prev_Some in Hpe as [Hge Hpe]. apply prev_Some in Hps as [_ Hps].
      exists a, b, a', b'. done.
    - intros (a & b & a' & b' & Hge & [= ->] & [= ->] & Hpe & Hps & H1 & H2).
      exists a, b, a', b'. split_and!; try done; by apply prev_Some. }
  exists (cross_at pe psm x y). split_and!; try done.
  - rewrite <- Hup, <- Hdown. destruct (cross_at pe psm x y); intuition congruence.
  - intros ->. subst pe psm. cbn [prev]. unfold cross_at.
    by rewrite !andb_false_r.
  - rewrite Hy. intros [= ->]. unfold cross_at.
    destruct x; cbn; by destruct pe, psm.
  - intros Hge Hnan. rewrite SMA_series in Hnan by done.
    assert (psm = None) as ->.
    { subst psm. destruct t as [|t]; [done|]. cbn [prev].
      rewrite Nat.sub_succ, Nat.sub_0_r in Hnan. by rewrite Hnan. }
    unfold cross_at. destruct pe; cbn; by rewrite !andb_false_r.
Qed.

Lemma crossover_classification_witness :
  (1 ≤ 3)%nat ∧ (1 ≤ 1)%nat ∧
  (1 < length [day 1 10; day 2 12; day 3 11; day 4 13])%nat ∧
  ∃ c, Crossover [day 1 10; day 2 12; day 3 11; day 4 13] 3 1 1 = Some c ∧
       (c = GOLDEN ↔ crosses_up [day 1 10; day 2 12; day 3 11; day 4 13] 3 1 1) ∧
       (c = DEATH ↔ crosses_down [day 1 10; day 2 12; day 3 11; day 4 13] 3 1 1) ∧
       (c = NONE ↔ ¬ crosses_up [day 1 10; day 2 12; day 3 11; day 4 13] 3 1 1
                   ∧ ¬ crosses_down [day 1 10; day 2 12; day 3 11; day 4 13] 3 1 1) ∧
       (1%nat = 0%nat → c = NONE) ∧
       (SMA [day 1 10; day 2 12; day 3 11; day 4 13] 3 1 1 = Some None → c = NONE) ∧
       ((1 ≤ 1)%nat →
        SMA [day 1 10; day 2 12; day 3 11; day 4 13] 3 1 (1 - 1) = Some None →
        c = NONE).
Proof.
  split; [lia|]. split; [lia|]. split; [cbn; lia|].
  apply (crossover_classification [day 1 10; day 2 12; day 3 11; day 4 13] 3 1 1);
    [lia | lia | cbn; lia].
Defined.

(** ** Effects of [calculate_indicators] on the store *)

(** Either the call assigns the three columns of the frame it was given
    and returns that frame, or it returns nothing (or raises) and leaves
    the world as it was. *)
Lemma calculate_indicators_cases df e s w :
  (∃ l fr xs,
      df = Some l ∧ frames w !! l = Some fr ∧ frame_empty fr = false ∧
      columns fr !! "Close" = Some (Floats xs) ∧ (1 ≤ e)%nat ∧
      calculate_indicators df e s w
      = (Ok (Some l), set_frame l (with_indicators fr xs e s) w)) ∨
  (∃ r, calculate_indicators df e s w = (r, w) ∧ ∀ l, r ≠ Ok (Some l)).
Proof.
  destruct df as [l|]; [|right; by eexists].
  destruct (frames w !! l) as [fr|] eqn:Hl.
  2:{ right. unfold calculate_indicators. rewrite Hl. by eexists. }
  destruct (frame_empty fr) eqn:Hne.
  { right. unfold calculate_indicators. rewrite Hl, Hne. by eexists. }
  destruct (columns fr !! "Close") as [c|] eqn:Hclose.
  2:{ right. unfold calculate_indicators. rewrite Hl, Hne.
      unfold bind at 1, getitem at 1. rewrite Hl, Hclose. by eexists. }
  destruct (decide (1 ≤ e)%nat) as [He|He].
  2:{ right. unfold calculate_indicators. rewrite Hl, Hne.
      rewrite (bind_ok _ _ _ _ _ (getitem_ok _ _ _ _ _ Hl Hclose)).
      unfold bind at 1, lift at 1, ewm_span_mean.
      rewrite (proj2 (Nat.ltb_lt e 1)) by lia. by eexists. }
  destruct c as [xs|xs].
  - left. exists l, fr, xs. split_and!; try done.
    by apply calculate_indicators_run.
  - right. unfold calculate_indicators. rewrite Hl, Hne.
    rewrite (bind_ok _ _ _ _ _ (getitem_ok _ _ _ _ _ Hl Hclose)).
    unfold bind at 1, lift at 1, ewm_span_mean.
    rewrite (proj2 (Nat.ltb_ge e 1)) by lia. cbn [numeric]. by eexists.
Qed.

Lemma with_indicators_empty fr xs e s :
  frame_empty (with_indicators fr xs e s) = false ↔ index fr ≠ [].
Proof.
  unfold frame_empty, with_indicators; cbn [index columns].
  rewrite (bool_decide_eq_false_2 (_ = ∅)) by apply insert_non_empty.
  rewrite orb_false_r, bool_decide_eq_false. done.
Qed.

Lemma frame_nonempty_index fr : frame_empty fr = false → index fr ≠ [].
Proof.
  unfold frame_empty. intros H. apply orb_false_iff in H as [H _].
  by apply bool_decide_eq_false in H.
Qed.

Lemma with_indicators_close fr xs e s :
  columns (with_indicators fr xs e s) !! "Close" = columns fr !! "Close".
Proof.
  unfold with_indicators; cbn [columns].
  rewrite lookup_insert_ne by done.
  rewrite lookup_insert_ne by apply sma_name_ne_close.
  by rewrite lookup_insert_ne by apply ema_name_ne_close.
Qed.

Lemma with_indicators_other fr xs e s k :
  k ≠ ema_name e → k ≠ sma_name s → k ≠ "Crossover" →
  columns (with_indicators fr xs e s) !! k = columns fr !! k.
Proof.
  intros H1 H2 H3. unfold with_indicators; cbn [columns].
  by rewrite !lookup_insert_ne.
Qed.

(** Assigning the same three columns again changes nothing. *)
Lemma with_indicators_crossover fr xs e s :
  columns (with_indicators fr xs e s) !! "Crossover"
  = Some (Labels (crossover (ewm_mean (alpha_of_span e) xs) (rolling_mean s xs))).
Proof. unfold with_indicators; cbn [columns]. apply lookup_insert_eq. Qed.

Lemma with_indicators_sma fr xs e s :
  columns (with_indicators fr xs e s) !! sma_name s
  = Some (Floats (rolling_mean s xs)).
Proof.
  unfold with_indicators; cbn [columns].
  rewrite lookup_insert_ne by (apply not_eq_sym, sma_name_ne_crossover).
  apply lookup_insert_eq.
Qed.

Lemma with_indicators_ema fr xs e s :
  columns (with_indicators fr xs e s) !! ema_name e
  = Some (Floats (ewm_mean (alpha_of_span e) xs)).
Proof.
  unfold with_indicators; cbn [columns].
  rewrite lookup_insert_ne by (apply not_eq_sym, ema_name_ne_crossover).
  rewrite lookup_insert_ne by (apply not_eq_sym, ema_name_ne_sma).
  apply lookup_insert_eq.
Qed.

Lemma with_indicators_twice fr xs e s :
  with_indicators (with_indicators fr xs e s) xs e s = with_indicators fr xs e s.
Proof.
  unfold with_indicators; cbn [index columns]. f_equal.
  apply map_eq. intros k.
  destruct (decide (k = "Crossover")) as [->|H3];
    [by rewrite !lookup_insert_eq|].
  rewrite !(lookup_insert_ne _ "Crossover") by done.
  destruct (decide (k = sma_name s)) as [->|H2];
    [by rewrite !lookup_insert_eq|].
  rewrite !(lookup_insert_ne _ (sma_name s)) by done.
  destruct (decide (k = ema_name e)) as [->|H1];
    [by rewrite !lookup_insert_eq|].
  rewrite !(lookup_insert_ne _ (ema_name e)) by done.
  rewrite ?lookup_insert_ne by done. done.
Qed.

(** C6 (as the code has it).  [calculate_indicators] works in place: when
    it returns a frame, that frame is the one it was given, with the
    columns [EMA<e>], [SMA<s>] and [Crossover] assigned (added or
    overwritten): they hold the EMA and the SMA of its [Close] column and
    the classification of the two.  The index and every other column of
    that frame, every other frame of the store, and the progress bar are
    as before.  It does return the frame whenever the frame is not empty,
    its [Close] column is numeric and the EMA period is at least 1. *)
Theorem calculate_indicators_frame (df : option loc) (e s : nat) (w : World) :
  let out := calculate_indicators df e s w in
  (∀ l, out.1 = Ok (Some l) → df = Some l) ∧
  progress_bar out.2 = progress_bar w ∧
  (∀ l', df ≠ Some l' → frames out.2 !! l' = frames w !! l') ∧
  (∀ l fr, df = Some l → frames w !! l = Some fr →
     ∃ fr', frames out.2 !! l = Some fr' ∧
            index fr' = index fr ∧
            ∀ k, k ≠ ema_name e → k ≠ sma_name s → k ≠ "Crossover" →
                 columns fr' !! k = columns fr !! k) ∧
  (∀ l fr, out.1 = Ok (Some l) → frames w !! l = Some fr →
     ∃ xs fr', columns fr !! "Close" = Some (Floats xs) ∧
               frames out.2 !! l = Some fr' ∧
               columns fr' !! ema_name e
               = Some (Floats (ewm_mean (alpha_of_span e) xs)) ∧
               columns fr' !! sma_name s = Some (Floats (rolling_mean s xs)) ∧
               columns fr' !! "Crossover"
               = Some (Labels (crossover (ewm_mean (alpha_of_span e) xs)
                                         (rolling_mean s xs)))) ∧
  (∀ l fr xs, df = Some l → frames w !! l = Some fr →
     frame_empty fr = false → columns fr !! "Close" = Some (Floats xs) →
     (1 ≤ e)%nat → out.1 = Ok (Some l)).
Proof.
  cbv zeta.
  assert (Hrun : ∀ l fr xs, df = Some l → frames w !! l = Some fr →
            frame_empty fr = false → columns fr !! "Close" = Some (Floats xs) →
            (1 ≤ e)%nat → (calculate_indicators df e s w).1 = Ok (Some l)).
  { intros l fr xs -> Hl Hne Hclose He.
    by rewrite (calculate_indicators_run l fr xs e s w Hl Hne Hclose He). }
  revert Hrun.
  destruct (calculate_indicators_cases df e s w)
    as [(l & fr & xs & -> & Hl & Hne & Hclose & He & ->)|(r & -> & Hr)];
    cbn [fst snd]; intros Hrun.
  - split_and!.
    + by intros ? [= ->].
    + done.
    + intros l' Hl'. cbn. rewrite lookup_insert_ne; [done|congruence].
    + intros l0 fr0 [= <-] Hfr0. rewrite Hl in Hfr0. injection Hfr0 as <-.
      exists (with_indicators fr xs e s). split_and!.
      * apply frames_set_frame.
      * done.
      * intros k. apply with_indicators_other.
    + intros l0 fr0 [= <-] Hfr0. rewrite Hl in Hfr0. injection Hfr0 as <-.
      exists xs, (with_indicators fr xs e s). split_and!.
      * exact Hclose.
      * apply frames_set_frame.
      * apply with_indicators_ema.
      * apply with_indicators_sma.
      * apply with_indicators_crossover.
    + exact Hrun.
  - split_and!; try done.
    + intros l E. by destruct (Hr l).
    + intros l fr _ Hl. by exists fr.
    + intros l fr E. by destruct (Hr l).
Qed.

(** C6, refuted as stated: after the call on a one-day series the frame
    passed in has changed, and the frame returned is the frame passed in. *)
Lemma calculate_indicators_mutates_input :
  let w := fresh_world [day 1 10] in
  let out := calculate_indicators (Some 1%positive) 3 1 w in
  frames w !! 1%positive = Some (frame_of_series [day 1 10]) ∧
  out.1 = Ok (Some 1%positive) ∧
  frames out.2 !! 1%positive ≠ frames w !! 1%positive.
Proof.
  cbv zeta.
  rewrite (calculate_indicators_run 1%positive (frame_of_series [day 1 10])
             (closes [day 1 10]) 3 1) by (done || lia).
  split_and!; [done..|].
  cbn [snd]. rewrite frames_set_frame. intros E.
  apply (f_equal (λ o, o ≫= λ fr, columns fr !! "Crossover")) in E.
  cbn in E. rewrite lookup_insert_eq in E. discriminate E.
Qed.

(** C10.  Calling [calculate_indicators] again on the frame it has already
    processed returns the same result and leaves the same world: the same
    EMA, SMA and Crossover columns, row for row. *)
Theorem calculate_indicators_idempotent (df : option loc) (e s : nat) (w : World) :
  let out := calculate_indicators df e s w in
  calculate_indicators df e s out.2 = out.
Proof.
  cbv zeta.
  destruct (calculate_indicators_cases df e s w)
    as [(l & fr & xs & -> & Hl & Hne & Hclose & He & Hrun)|(r & Hrun & _)];
    rewrite Hrun; cbn [snd]; [|done].
  rewrite (calculate_indicators_run l (with_indicators fr xs e s) xs).
  - by rewrite with_indicators_twice, set_frame_twice.
  - apply frames_set_frame.
  - by apply with_indicators_empty, frame_nonempty_index.
  - by rewrite with_indicators_close.
  - done.
Qed.

(** ** Alternation of the detected events *)

Lemma Qlt_bool_asym a b : Qlt_bool a b = true → Qlt_bool b a = false.
Proof.
  intros H. apply Qlt_bool_iff in H.
  destruct (Qlt_bool b a) eqn:E; [|done]. apply Qlt_bool_iff in E.
  exfalso. eapply Qlt_irrefl, Qlt_trans; eauto.
Qed.

Lemma Qle_bool_negb a b : Qle_bool a b = negb (Qlt_bool b a).
Proof. unfold Qlt_bool. by rewrite negb_involutive. Qed.

Lemma cross_at_step pe ps e s :
  cross_at pe ps e s = step (rel_of pe ps) (rel_of e s).
Proof.
  unfold cross_at, fgt, flt, fle, fge, rel_of.
  destruct e as [a|], s as [b|], pe as [a'|], ps as [b'|];
    rewrite ?Qle_bool_negb, ?andb_false_r; cbn [andb step]; try done;
    try (by destruct (Qlt_bool b a), (Qlt_bool a b));
    try (by destruct (Qlt_bool b' a'), (Qlt_bool a' b')).
  pose proof (Qlt_bool_asym b a) as H1. pose proof (Qlt_bool_asym b' a') as H2.
  destruct (Qlt_bool b a), (Qlt_bool a b), (Qlt_bool b' a'), (Qlt_bool a' b');
    cbn; try done; first [by discriminate H1 | by discriminate H2].
Qed.

Lemma classify_length rs : ∀ p, length (classify p rs) = length rs.
Proof. induction rs as [|r rs IH]; intros p; cbn; [done|]. by rewrite IH. Qed.

Lemma classify_lookup rs : ∀ p t r,
  rs !! t = Some r →
  classify p rs !! t
  = Some (step (match t with O => p | S t' => default Undef (rs !! t') end) r).
Proof.
  induction rs as [|r0 rs IH]; intros p t r Ht; [done|].
  destruct t as [|t].
  - injection Ht as ->. reflexivity.
  - change (rs !! t = Some r) in Ht.
    change (classify r0 rs !! t
            = Some (step (default Undef ((r0 :: rs) !! t)) r)).
    rewrite (IH r0 t r Ht). by destruct t.
Qed.

Lemma classify_app rs1 rs2 : ∀ p,
  classify p (rs1 ++ rs2)
  = classify p rs1 ++ classify (default p (last rs1)) rs2.
Proof.
  induction rs1 as [|r rs1 IH]; intros p; [done|].
  cbn [app classify]. rewrite IH. do 2 f_equal.
  destruct rs1 as [|r' rs1]; [done|]. rewrite last_cons_cons.
  destruct (last (r' :: rs1)) eqn:E; [done|]. by apply last_None in E.
Qed.

Lemma crossover_classify ema sma :
  length ema = length sma →
  crossover ema sma = classify Undef (zip_with rel_of ema sma).
Proof.
  intros Hlen. apply list_eq. intros t.
  destruct (ema !! t) as [e|] eqn:He.
  - destruct (lookup_lt_is_Some_2 sma t) as [s Hs].
    { rewrite <- Hlen. by eapply lookup_lt_Some. }
    rewrite (crossover_lookup _ _ _ _ _ He Hs), cross_at_step.
    rewrite (classify_lookup _ Undef t (rel_of e s))
      by (by rewrite lookup_zip_with, He, Hs).
    do 2 f_equal. destruct t as [|t]; [done|]. cbn [prev].
    rewrite lookup_zip_with.
    destruct (lookup_lt_is_Some_2 ema t) as [e' He'];
      [apply lookup_lt_Some in He; lia|].
    destruct (lookup_lt_is_Some_2 sma t) as [s' Hs'];
      [apply lookup_lt_Some in Hs; lia|].
    by rewrite He', Hs'.
  - rewrite (lookup_ge_None_2 (classify _ _)).
    + unfold crossover, np_where, series_and, series_cmp.
      rewrite !lookup_zip_with, He. done.
    + rewrite classify_length, length_zip_with. apply lookup_ge_None in He. lia.
Qed.

Lemma detected_cons_NONE l : detected (NONE :: l) = detected l.
Proof. unfold detected. by rewrite filter_cons_False by (intros H; by apply H). Qed.

Lemma detected_cons_event c l : c ≠ NONE → detected (c :: l) = c :: detected l.
Proof. intros H. unfold detected. by rewrite filter_cons_True. Qed.

Lemma classify_strict_alternates rs : ∀ p,
  Forall strict rs →
  alternates (detected (classify p rs)) ∧ opens_after p (detected (classify p rs)).
Proof.
  induction rs as [|r rs IH]; intros p Hrs; [done|].
  apply Forall_cons in Hrs as [Hr Hrs].
  destruct (IH r Hrs) as [Halt Hopen]. cbn [classify].
  destruct Hr as [-> | ->], p; cbn [step];
    rewrite ?detected_cons_NONE, ?detected_cons_event by done;
    destruct (detected (classify _ rs)) as [|y l];
    cbn [alternates opens_after] in *;
    intuition (subst; congruence).
Qed.

Lemma count_of_cons c x l :
  count_of c (x :: l) = ((if decide (x = c) then 1 else 0) + count_of c l)%nat.
Proof.
  unfold count_of. rewrite filter_cons. by destruct (decide (x = c)).
Qed.

Lemma count_of_app c l1 l2 :
  count_of c (l1 ++ l2) = (count_of c l1 + count_of c l2)%nat.
Proof. unfold count_of. by rewrite filter_app, length_app. Qed.

Lemma count_of_replicate_NONE c n : c ≠ NONE → count_of c (replicate n NONE) = 0%nat.
Proof.
  intros Hc. induction n as [|n IH]; [done|].
  cbn [replicate]. rewrite count_of_cons, IH. by destruct (decide (NONE = c)).
Qed.

Lemma count_of_detected c l : c ≠ NONE → count_of c (detected l) = count_of c l.
Proof.
  intros Hc. induction l as [|x l IH]; [done|].
  destruct (decide (x = NONE)) as [->|Hx].
  - rewrite detected_cons_NONE, count_of_cons, IH.
    by destruct (decide (NONE = c)).
  - by rewrite detected_cons_event, !count_of_cons, IH.
Qed.

Lemma detected_replicate_NONE n : detected (replicate n NONE) = [].
Proof.
  induction n as [|n IH]; [done|]. cbn [replicate]. by rewrite detected_cons_NONE.
Qed.

Lemma detected_no_NONE l : Forall (λ c, c ≠ NONE) (detected l).
Proof. unfold detected. apply Forall_forall. intros c Hc. by apply list_elem_of_filter in Hc as [? _]. Qed.

(** In an alternating sequence of events the two directions are balanced
    up to the first event. *)
Lemma alternates_balance l :
  Forall (λ c, c ≠ NONE) l → alternates l →
  match l with
  | [] => True
  | GOLDEN :: _ =>
      (count_of DEATH l ≤ count_of GOLDEN l ≤ count_of DEATH l + 1)%nat
  | DEATH :: _ =>
      (count_of GOLDEN l ≤ count_of DEATH l ≤ count_of GOLDEN l + 1)%nat
  | NONE :: _ => False
  end.
Proof.
  induction l as [|x l IH]; intros Hall Halt; [done|].
  apply Forall_cons in Hall as [Hx Hall].
  destruct l as [|y l].
  - destruct x; try done; vm_compute; lia.
  - destruct Halt as [Hxy Halt]. specialize (IH Hall Halt).
    rewrite !(count_of_cons _ x).
    destruct x, y; try done; repeat case_decide; try done; lia.
Qed.

Lemma alternates_counts l :
  Forall (λ c, c ≠ NONE) l → alternates l →
  (count_of GOLDEN l ≤ count_of DEATH l + 1)%nat ∧
  (count_of DEATH l ≤ count_of GOLDEN l + 1)%nat.
Proof.
  intros Hall Halt. pose proof (alternates_balance l Hall Halt) as H.
  destruct l as [|[] l]; [vm_compute; lia | lia | lia | done].
Qed.

Lemma step_Undef r : step Undef r = NONE.
Proof. by destruct r. Qed.

(** Nothing is detected while the SMA is still NaN on the row before. *)
Lemma classify_quiet rs :
  (∀ t, (S t < length rs)%nat → rs !! t = Some Undef) →
  classify Undef rs = replicate (length rs) NONE.
Proof.
  induction rs as [|r rs IH]; intros H; [done|].
  cbn [classify length replicate]. rewrite step_Undef. f_equal.
  destruct rs as [|r' rs]; [done|].
  assert (r = Undef) as ->.
  { specialize (H 0%nat ltac:(cbn; lia)). by injection H. }
  apply IH. intros t Ht. apply (H (S t)). cbn in *. lia.
Qed.

Lemma ewm_mean_defined alpha cs t :
  (t < length cs)%nat → ∃ y, ewm_mean alpha (Some <$> cs) !! t = Some (Some y).
Proof.
  intros Ht. destruct cs as [|c0 cs]; [cbn in Ht; lia|].
  destruct t as [|t]; [by eexists|].
  destruct (lookup_lt_is_Some_2 cs t) as [c Hc]; [cbn in Ht; lia|].
  destruct (ewm_loop_recurrence alpha cs c0 t c Hc) as (y & _ & H & _).
  by exists y.
Qed.

Lemma signals_series ps e s :
  (1 ≤ e)%nat →
  signals ps e s
  = crossover (ewm_mean (alpha_of_span e) (closes ps)) (rolling_mean s (closes ps)).
Proof.
  intros He. destruct (decide (ps = [])) as [->|Hps]; [done|].
  unfold signals. rewrite compute_nonempty by done.
  unfold with_indicators; cbn [columns]. by rewrite lookup_insert_eq.
Qed.

Lemma rel_of_NaN e : rel_of e None = Undef.
Proof. by destruct e. Qed.

Lemma rel_of_strict a b : ¬ a == b → strict (rel_of (Some a) (Some b)).
Proof.
  intros Hne. unfold strict, rel_of.
  destruct (Qlt_bool b a) eqn:E1; [by left|].
  destruct (Qlt_bool a b) eqn:E2; [by right|].
  exfalso. apply Hne. apply Qle_antisym; apply Qnot_lt_le; intros H;
    apply Qlt_bool_iff in H; congruence.
Qed.

(** C4 (as the code has it).  When the EMA never equals the SMA on a row
    [t >= smaPeriod], the detected events alternate in direction and the
    numbers of GOLDEN and of DEATH rows differ by at most one. *)
Theorem events_alternate_without_ties (ps : PriceSeries) (e s : nat) :
  (1 ≤ e)%nat → (1 ≤ s)%nat →
  (∀ t a b, (s ≤ t)%nat →
     EMA ps e s t = Some (Some a) → SMA ps e s t = Some (Some b) → ¬ a == b) →
  alternates (detected (signals ps e s)) ∧
  (count_of GOLDEN (signals ps e s) ≤ count_of DEATH (signals ps e s) + 1)%nat ∧
  (count_of DEATH (signals ps e s) ≤ count_of GOLDEN (signals ps e s) + 1)%nat.
Proof.
  intros He Hs Hties. rewrite signals_series by done.
  set (ema := ewm_mean (alpha_of_span e) (closes ps)).
  set (sma := rolling_mean s (closes ps)).
  assert (Hlen : length ema = length sma).
  { subst ema sma. by rewrite ewm_mean_length, rolling_mean_length. }
  assert (Hn : length ema = length ps).
  { subst ema. by rewrite ewm_mean_length, closes_length. }
  rewrite (crossover_classify _ _ Hlen).
  set (rels := zip_with rel_of ema sma).
  assert (Hrn : length rels = length ps).
  { subst rels. rewrite length_zip_with. lia. }
  rewrite <- (take_drop s rels), classify_app.
  set (p := default Undef (last (take s rels))).
  assert (Hquiet : classify Undef (take s rels)
                   = replicate (length (take s rels)) NONE).
  { apply classify_quiet. intros t Ht. rewrite length_take in Ht.
    rewrite lookup_take_lt by lia. subst rels. rewrite lookup_zip_with.
    destruct (lookup_lt_is_Some_2 ema t) as [x ->]; [lia|].
    subst sma. rewrite closes_fmap.
    rewrite rolling_mean_undefined by (rewrite ?length_fmap; lia).
    cbn. by rewrite rel_of_NaN. }
  assert (Hstrict : Forall strict (drop s rels)).
  { apply Forall_lookup. intros i r Hr. rewrite lookup_drop in Hr.
    pose proof (lookup_lt_Some _ _ _ Hr) as Hlt.
    subst rels. rewrite lookup_zip_with in Hr.
    destruct (ewm_mean_defined (alpha_of_span e) (close <$> ps) (s + i))
      as [a Ha]; [rewrite length_fmap; lia|].
    destruct (rolling_mean_defined s (close <$> ps) (s + i))
      as (b & Hb & _); [done | rewrite length_fmap; lia | lia |].
    subst ema sma. rewrite closes_fmap, Ha, Hb in Hr. cbn in Hr.
    injection Hr as <-. apply rel_of_strict.
    apply (Hties (s + i)%nat); [lia | |].
    - by rewrite EMA_series, closes_fmap.
    - by rewrite SMA_series, closes_fmap. }
  destruct (classify_strict_alternates (drop s rels) p Hstrict) as [Halt _].
  rewrite Hquiet. unfold detected at 1. rewrite filter_app.
  fold (detected (replicate (length (take s rels)) NONE)).
  fold (detected (classify p (drop s rels))).
  rewrite detected_replicate_NONE, app_nil_l. split; [done|].
  rewrite !count_of_app, !count_of_replicate_NONE by done.
  rewrite <- !(count_of_detected _ (classify p (drop s rels))) by done.
  apply alternates_counts; [apply detected_no_NONE | done].
Qed.

(** C4, refuted as stated: with closes 10, 12, 11, 13, an EMA of period 3
    and an SMA of period 1, the EMA is below the SMA on row 1, equal on
    row 2 and below again on row 3: two DEATH events in a row and no
    GOLDEN one. *)
Lemma two_deaths_in_a_row :
  signals [day 1 10; day 2 12; day 3 11; day 4 13] 3 1 = [NONE; DEATH; NONE; DEATH] ∧
  count_of GOLDEN (signals [day 1 10; day 2 12; day 3 11; day 4 13] 3 1) = 0%nat ∧
  count_of DEATH (signals [day 1 10; day 2 12; day 3 11; day 4 13] 3 1) = 2%nat ∧
  ¬ alternates (detected (signals [day 1 10; day 2 12; day 3 11; day 4 13] 3 1)).
Proof.
  assert (H : signals [day 1 10; day 2 12; day 3 11; day 4 13] 3 1
              = [NONE; DEATH; NONE; DEATH]) by (vm_compute; reflexivity).
  rewrite H. repeat (split; [reflexivity|]).
  intros [Hne _]. congruence.
Qed.

Lemma events_alternate_without_ties_witness :
  (1 ≤ 3)%nat ∧ (1 ≤ 1)%nat ∧
  (∀ t a b, (1 ≤ t)%nat →
     EMA [day 1 10; day 2 12; day 3 9] 3 1 t = Some (Some a) →
     SMA [day 1 10; day 2 12; day 3 9] 3 1 t = Some (Some b) → ¬ a == b) ∧
  alternates (detected (signals [day 1 10; day 2 12; day 3 9] 3 1)) ∧
  (count_of GOLDEN (signals [day 1 10; day 2 12; day 3 9] 3 1)
   ≤ count_of DEATH (signals [day 1 10; day 2 12; day 3 9] 3 1) + 1)%nat ∧
  (count_of DEATH (signals [day 1 10; day 2 12; day 3 9] 3 1)
   ≤ count_of GOLDEN (signals [day 1 10; day 2 12; day 3 9] 3 1) + 1)%nat.
Proof.
  assert (Hties : ∀ t a b, (1 ≤ t)%nat →
     EMA [day 1 10; day 2 12; day 3 9] 3 1 t = Some (Some a) →
     SMA [day 1 10; day 2 12; day 3 9] 3 1 t = Some (Some b) → ¬ a == b).
  { intros [|[|[|t]]] a b Ht; [lia|..].
    - vm_compute. intros [= <-] [= <-]. discriminate.
    - vm_compute. intros [= <-] [= <-]. discriminate.
    - vm_compute. destruct t; discriminate. }
  split; [lia|]. split; [lia|]. split; [exact Hties|].
  apply (events_alternate_without_ties [day 1 10; day 2 12; day 3 9] 3 1);
    [lia | lia | exact Hties].
Defined.

(** ** Positions and masks *)

Lemma take_idx_lookup {A} (l : list A) ix : ∀ j,
  Forall (λ i, i < length l)%nat ix →
  take_idx ix l !! j = ix !! j ≫= (l !!.).
Proof.
  induction ix as [|i ix IH]; intros j Hix; [done|].
  apply Forall_cons in Hix as [Hi Hix].
  destruct (lookup_lt_is_Some_2 l i Hi) as [x Hx].
  unfold take_idx. cbn [omap list_omap]. rewrite Hx.
  destruct j as [|j]; cbn; [by rewrite Hx|]. by apply IH.
Qed.

Lemma take_idx_length {A} (l : list A) ix :
  Forall (λ i, i < length l)%nat ix → length (take_idx ix l) = length ix.
Proof.
  induction ix as [|i ix IH]; intros Hix; [done|].
  apply Forall_cons in Hix as [Hi Hix].
  destruct (lookup_lt_is_Some_2 l i Hi) as [x Hx].
  unfold take_idx. cbn [omap list_omap]. rewrite Hx. cbn. f_equal. by apply IH.
Qed.

Lemma nonzero_from_bound mask : ∀ i,
  Forall (λ j, i ≤ j < i + length mask)%nat (nonzero_from i mask).
Proof.
  induction mask as [|b m IH]; intros i; [constructor|].
  cbn [nonzero_from length].
  assert (Forall (λ j, i ≤ j < i + S (length m))%nat (nonzero_from (S i) m)).
  { eapply Forall_impl; [apply IH|]. cbn. intros; lia. }
  destruct b; [constructor; [lia|done] | done].
Qed.

Lemma nonzero_bound mask : Forall (λ j, j < length mask)%nat (nonzero mask).
Proof.
  eapply Forall_impl; [apply (nonzero_from_bound mask 0)|]. cbn. intros; lia.
Qed.

Lemma nonzero_from_shift mask : ∀ k i,
  Nat.add k <$> nonzero_from i mask = nonzero_from (k + i) mask.
Proof.
  induction mask as [|b m IH]; intros k i; [done|].
  cbn [nonzero_from]. destruct b; cbn [fmap list_fmap];
    rewrite IH; by replace (k + S i)%nat with (S (k + i)) by lia.
Qed.

(** Selecting by a mask computed row by row is filtering. *)
Lemma take_idx_nonzero_filter {A} (P : A → Prop) `{!∀ x, Decision (P x)}
    (pre l : list A) :
  take_idx (nonzero_from (length pre) ((λ x, bool_decide (P x)) <$> l)) (pre ++ l)
  = filter P l.
Proof.
  revert pre. induction l as [|x l IH]; intros pre; [done|].
  cbn [fmap list_fmap nonzero_from]. rewrite filter_cons.
  specialize (IH (pre ++ [x])).
  rewrite length_app, <- app_assoc in IH. cbn in IH.
  rewrite Nat.add_1_r in IH.
  destruct (decide (P x)) as [HP|HP].
  - rewrite bool_decide_eq_true_2 by done.
    unfold take_idx in *. cbn [omap list_omap].
    rewrite lookup_app_r by done. rewrite Nat.sub_diag. cbn. by rewrite IH.
  - rewrite bool_decide_eq_false_2 by done. done.
Qed.

Lemma nonzero_from_drop (l : list Signal) : ∀ k d,
  (length l - d = k)%nat → (d ≤ length l)%nat →
  nonzero_from d ((λ x, bool_decide (x ≠ NONE)) <$> drop d l)
  = filter (λ i, l !! i ≠ Some NONE) (seq d k).
Proof.
  induction k as [|k IH]; intros d Hk Hd.
  - by rewrite drop_ge by lia.
  - destruct (lookup_lt_is_Some_2 l d) as [x Hx]; [lia|].
    rewrite (drop_S _ _ _ Hx). cbn [fmap list_fmap nonzero_from seq].
    rewrite filter_cons, IH by lia. rewrite Hx.
    destruct (decide (x = NONE)) as [->|Hne].
    + rewrite bool_decide_eq_false_2 by (by intros H; apply H).
      by rewrite decide_False by (by intros H; apply H).
    + rewrite bool_decide_eq_true_2 by done.
      by rewrite decide_True by congruence.
Qed.

(** ** Rows of the selected frame *)

Lemma crossover_length ema sma :
  length ema = length sma → length (crossover ema sma) = length ema.
Proof.
  intros H. rewrite crossover_classify, classify_length, length_zip_with by done.
  lia.
Qed.

Lemma well_formed_with_indicators ps e s :
  well_formed (with_indicators (frame_of_series ps) (closes ps) e s).
Proof.
  intros k c. unfold with_indicators, frame_of_series; cbn [columns index].
  rewrite length_fmap.
  rewrite !lookup_insert_Some, lookup_empty.
  intros H. repeat (destruct H as [[_ <-]|[_ H]]); cbn [col_length];
    rewrite ?length_fmap; try done.
  - rewrite crossover_length;
      by rewrite ?ewm_mean_length, ?rolling_mean_length, ?closes_length.
  - by rewrite rolling_mean_length, closes_length.
  - by rewrite ewm_mean_length, closes_length.
Qed.

Lemma list_tail_lookup {A} (l : list A) n i :
  list_tail n l !! i = l !! (length l - n + i)%nat.
Proof. unfold list_tail. apply lookup_drop. Qed.

Lemma list_tail_length {A} (l : list A) n :
  length (list_tail n l) = (length l - (length l - n))%nat.
Proof. unfold list_tail. apply length_drop. Qed.

Lemma col_cell_select_tail c ix n j i :
  Forall (λ i, i < col_length c - (col_length c - n))%nat ix →
  ix !! j = Some i →
  col_cell (col_map (λ A, take_idx ix) (col_map (λ A, list_tail n) c)) j
  = col_cell c (col_length c - n + i).
Proof.
  intros Hix Hj.
  destruct c as [xs|xs]; cbn [col_map col_cell col_length] in *;
    rewrite take_idx_lookup by (by rewrite list_tail_length);
    by rewrite Hj; cbn; rewrite list_tail_lookup.
Qed.

Lemma rows_of_selection df n mask :
  well_formed df →
  length mask = length (list_tail n (index df)) →
  Forall2 (λ i r, frame_row df (length (index df) - n + i) = Some r)
          (nonzero mask) (iterrows (frame_select mask (frame_tail n df))).
Proof.
  intros Hwf Hmask.
  pose proof (nonzero_bound mask) as Hix. rewrite Hmask in Hix.
  apply Forall2_same_length_lookup_2.
  { unfold iterrows. rewrite length_imap. cbn [frame_select index frame_tail].
    by rewrite take_idx_length. }
  intros j i r Hj Hr. unfold iterrows in Hr.
  rewrite list_lookup_imap in Hr. cbn [frame_select index frame_tail columns] in Hr.
  rewrite take_idx_lookup, Hj in Hr by done. cbn in Hr.
  rewrite list_tail_lookup in Hr.
  unfold frame_row.
  destruct (index df !! (length (index df) - n + i)%nat) as [idx|]; [|done].
  cbn in Hr. injection Hr as <-. do 2 f_equal.
  apply map_eq. intros k. rewrite !lookup_omap, !lookup_fmap.
  destruct (columns df !! k) as [c|] eqn:Hc; [|done]. cbn.
  rewrite <- (Hwf k c Hc). symmetry. apply col_cell_select_tail; [|done].
  rewrite (Hwf k c Hc). by rewrite list_tail_length in Hix.
Qed.

Lemma append_events_Forall2 symbol e s rows evs :
  Forall2 (λ r ev, make_event symbol e s r = Ok ev) rows evs →
  ∀ acc, append_events symbol e s rows acc = Ok (acc ++ evs).
Proof.
  induction 1 as [|r ev rows evs Hr _ IH]; intros acc.
  - by rewrite app_nil_r.
  - cbn [append_events]. rewrite Hr. cbn [rbind].
    by rewrite IH, <- app_assoc.
Qed.

Lemma Forall2_split_exists {A B C} (P : B → C → Prop) (Q : A → C → Prop)
    (l : list A) (k : list B) :
  Forall2 (λ a b, ∃ c, P b c ∧ Q a c) l k →
  ∃ cs, Forall2 P k cs ∧ Forall2 Q l cs.
Proof.
  induction 1 as [|a b l k (c & HP & HQ) _ (cs & IH1 & IH2)].
  - exists []. by split.
  - exists (c :: cs). split; by constructor.
Qed.

Lemma make_event_row symbol ps e s i r :
  (1 ≤ e)%nat →
  frame_row (with_indicators (frame_of_series ps) (closes ps) e s) i = Some r →
  ∃ ev, make_event symbol e s r = Ok ev ∧ row_event symbol ps e s i = Some ev.
Proof.
  intros He Hr. unfold frame_row in Hr.
  set (df := with_indicators (frame_of_series ps) (closes ps) e s) in *.
  set (row := omap (λ c, col_cell c i) (columns df)) in *.
  assert (Hidx : index df = date <$> ps) by done.
  rewrite Hidx, list_lookup_fmap in Hr.
  destruct (ps !! i) as [p|] eqn:Hp; [|done].
  pose proof (lookup_lt_Some _ _ _ Hp) as Hlt.
  destruct (Crossover_cross_at ps e s i He Hlt) as (x & y & Hx & Hy & Hc).
  unfold row_event. rewrite Hp, Hx, Hy, Hc.
  rewrite EMA_series in Hx by done. rewrite SMA_series in Hy by done.
  rewrite Crossover_series in Hc by done.
  assert (H1 : row !! "Crossover"
               = Some (Label (cross_at
                   (prev (ewm_mean (alpha_of_span e) (closes ps)) i)
                   (prev (rolling_mean s (closes ps)) i) x y))).
  { subst row df. rewrite lookup_omap, with_indicators_crossover. cbn.
    by rewrite Hc. }
  assert (H2 : row !! "Close" = Some (Float (Some (close p)))).
  { subst row df. rewrite lookup_omap, with_indicators_close, frame_of_series_close.
    cbn. by rewrite (closes_lookup _ _ _ Hp). }
  assert (H3 : row !! ema_name e = Some (Float x)).
  { subst row df. rewrite lookup_omap, with_indicators_ema. cbn. by rewrite Hx. }
  assert (H4 : row !! sma_name s = Some (Float y)).
  { subst row df. rewrite lookup_omap, with_indicators_sma. cbn. by rewrite Hy. }
  clearbody row. cbn in Hr. injection Hr as <-.
  eexists. split; [|done].
  unfold make_event, row_getitem. cbn [fst snd].
  by rewrite H1, H2, H3, H4.
Qed.

(** The events of a series: one for each row among the last
    [days_to_look_back] whose label is not NONE, in row order. *)
Lemma recent_crossovers_series symbol ps e s n :
  (1 ≤ e)%nat →
  ∃ evs,
    (∀ acc, recent_crossovers symbol e s n
              (with_indicators (frame_of_series ps) (closes ps) e s) acc
            = Ok (acc ++ evs)) ∧
    Forall2 (λ i ev, row_event symbol ps e s i = Some ev)
      (filter (λ i, Crossover ps e s i ≠ Some NONE)
              (seq (length ps - n) (length ps - (length ps - n))))
      evs.
Proof.
  intros He.
  set (df := with_indicators (frame_of_series ps) (closes ps) e s).
  set (cross := crossover (ewm_mean (alpha_of_span e) (closes ps))
                          (rolling_mean s (closes ps))).
  assert (Hcl : length cross = length ps).
  { subst cross. rewrite crossover_length;
      by rewrite ?ewm_mean_length, ?rolling_mean_length, ?closes_length. }
  assert (Hidx : length (index df) = length ps) by apply length_fmap.
  assert (Hget : columns (frame_tail n df) !! "Crossover"
                 = Some (Labels (list_tail n cross))).
  { cbn [frame_tail columns]. rewrite lookup_fmap.
    subst df. by rewrite with_indicators_crossover. }
  set (mask := (λ x, bool_decide (x ≠ NONE)) <$> list_tail n cross).
  pose proof (rows_of_selection df n mask
                (well_formed_with_indicators ps e s)) as Hrows.
  rewrite Hidx in Hrows.
  specialize (Hrows ltac:(subst mask;
    by rewrite length_fmap, !list_tail_length, Hcl, Hidx)).
  destruct (Forall2_split_exists
              (λ r ev, make_event symbol e s r = Ok ev)
              (λ i ev, row_event symbol ps e s (length ps - n + i) = Some ev)
              (nonzero mask)
              (iterrows (frame_select mask (frame_tail n df))))
    as (evs & Hevs & Hix).
  { eapply Forall2_impl; [exact Hrows|]. cbn. intros i r Hr.
    by apply make_event_row. }
  exists evs. split.
  - intros acc. unfold recent_crossovers, frame_getitem. rewrite Hget.
    cbn [rbind ne_NONE]. by apply append_events_Forall2.
  - assert (Hpos : Nat.add (length ps - n) <$> nonzero mask
                   = filter (λ i, Crossover ps e s i ≠ Some NONE)
                       (seq (length ps - n) (length ps - (length ps - n)))).
    { unfold nonzero. rewrite nonzero_from_shift, Nat.add_0_r.
      subst mask. unfold list_tail. rewrite Hcl.
      rewrite (nonzero_from_drop cross (length ps - (length ps - n))) by lia.
      apply list_filter_iff. intros i.
      by rewrite Crossover_series by done. }
    rewrite <- Hpos. by apply Forall2_fmap_l.
Qed.

(** ** One symbol of the scan *)

Lemma fetch_stock_data_history provider symbol ps w :
  provider symbol = History ps → ps ≠ [] →
  fetch_stock_data provider symbol w
  = (Ok (Some (fresh (dom (frames w)))),
     set_frame (fresh (dom (frames w))) (frame_of_series ps) w).
Proof.
  intros Hp Hps. unfold fetch_stock_data. rewrite Hp.
  unfold bind, alloc. rewrite frames_set_frame, frame_of_series_empty.
  by rewrite bool_decide_eq_false_2.
Qed.

Lemma fetch_stock_data_fails provider symbol w :
  fetch_fails provider symbol →
  ∃ w', fetch_stock_data provider symbol w = (Ok None, w') ∧
        progress_bar w' = progress_bar w.
Proof.
  intros [Hp|Hp]; unfold fetch_stock_data; rewrite Hp.
  - by exists w.
  - unfold bind, alloc. rewrite frames_set_frame. by eexists.
Qed.

Lemma scan_symbol_fails provider e s n symbol acc w :
  fetch_fails provider symbol →
  ∃ w', scan_symbol provider e s n symbol acc w = (Ok acc, w') ∧
        progress_bar w' = progress_bar w.
Proof.
  intros Hf. destruct (fetch_stock_data_fails provider symbol w Hf) as (w' & Hw & Hp).
  exists w'. split; [|done]. unfold scan_symbol.
  by rewrite (bind_ok _ _ _ _ _ Hw).
Qed.

Lemma scan_symbol_history provider e s n symbol ps :
  (1 ≤ e)%nat → provider symbol = History ps → ps ≠ [] →
  ∃ evs,
    (∀ acc w, ∃ w', scan_symbol provider e s n symbol acc w = (Ok (acc ++ evs), w') ∧
                    progress_bar w' = progress_bar w) ∧
    Forall2 (λ i ev, row_event symbol ps e s i = Some ev)
      (filter (λ i, Crossover ps e s i ≠ Some NONE)
              (seq (length ps - n) (length ps - (length ps - n))))
      evs.
Proof.
  intros He Hp Hps.
  destruct (recent_crossovers_series symbol ps e s n He) as (evs & Hrun & Hevs).
  exists evs. split; [|done]. intros acc w.
  eexists. split.
  - unfold scan_symbol.
    rewrite (bind_ok _ _ _ _ _ (fetch_stock_data_history _ _ _ _ Hp Hps)).
    rewrite (bind_ok _ _ _ _ _
               (calculate_indicators_run _ (frame_of_series ps) (closes ps) e s _
                  (frames_set_frame _ _ _)
                  ltac:(by rewrite frame_of_series_empty, bool_decide_eq_false_2)
                  (frame_of_series_close ps) He)).
    rewrite frames_set_frame.
    rewrite (proj2 (with_indicators_empty _ _ _ _)).
    + by rewrite Hrun.
    + cbn [index frame_of_series]. by intros ?%fmap_nil_inv.
  - done.
Qed.

(** Whatever the provider does, and from any world, a symbol adds its own
    events to [crossover_data] and leaves the progress bar alone. *)
Lemma scan_symbol_run provider e s n symbol acc w :
  (1 ≤ e)%nat →
  ∃ w', scan_symbol provider e s n symbol acc w
        = (Ok (acc ++ symbol_events provider e s n symbol), w') ∧
        progress_bar w' = progress_bar w.
Proof.
  intros He. unfold symbol_events.
  destruct (provider symbol) as [|ps] eqn:Hp.
  - destruct (scan_symbol_fails provider e s n symbol [] empty_world)
      as (w1 & -> & _); [by left|].
    destruct (scan_symbol_fails provider e s n symbol acc w)
      as (w2 & -> & ?); [by left|].
    exists w2. by rewrite app_nil_r.
  - destruct (decide (ps = [])) as [->|Hps].
    + destruct (scan_symbol_fails provider e s n symbol [] empty_world)
        as (w1 & -> & _); [by right|].
      destruct (scan_symbol_fails provider e s n symbol acc w)
        as (w2 & -> & ?); [by right|].
      exists w2. by rewrite app_nil_r.
    + destruct (scan_symbol_history provider e s n symbol ps He Hp Hps)
        as (evs & Hrun & _).
      destruct (Hrun [] empty_world) as (w1 & -> & _).
      destruct (Hrun acc w) as (w2 & -> & ?).
      by exists w2.
Qed.

(** ** The whole scan *)

Lemma scan_loop_run provider e s n total symbols :
  (1 ≤ e)%nat →
  ∀ i acc w,
  ∃ w', scan_loop provider e s n total i symbols acc w
        = (Ok (acc ++ flat_map (symbol_events provider e s n) symbols), w') ∧
        progress_bar w'
        = progress_bar w ++ progress_values total i (length symbols).
Proof.
  intros He. induction symbols as [|symbol rest IH]; intros i acc w.
  - exists w. cbn. by rewrite !app_nil_r.
  - destruct (scan_symbol_run provider e s n symbol acc w He) as (w1 & Hsym & Hp1).
    set (w2 := mkWorld (frames w1) (progress_bar w1 ++ [Qnat (i + 1) / Qnat total])).
    destruct (IH (S i) (acc ++ symbol_events provider e s n symbol) w2)
      as (w3 & Hloop & Hp3).
    exists w3. split.
    + cbn [scan_loop flat_map]. rewrite (bind_ok _ _ _ _ _ Hsym).
      unfold bind at 1, set_progress at 1. fold w2.
      by rewrite Hloop, app_assoc.
    + rewrite Hp3. subst w2. cbn [progress_bar length]. rewrite Hp1.
      unfold progress_values. cbn [seq fmap list_fmap].
      by rewrite <- app_assoc.
Qed.

Lemma symbol_events_fails provider e s n symbol :
  fetch_fails provider symbol → symbol_events provider e s n symbol = [].
Proof.
  intros Hf. unfold symbol_events.
  by destruct (scan_symbol_fails provider e s n symbol [] empty_world Hf)
    as (w' & -> & _).
Qed.

Lemma Qnat_div_self n : (1 ≤ n)%nat → Qnat n / Qnat n == 1.
Proof.
  intros Hn. field. intros E. pose proof (Qnat_pos n Hn) as Hp.
  rewrite E in Hp. by apply Qlt_irrefl in Hp.
Qed.

(** C7.  A symbol whose fetch raises or returns an empty history adds no
    event; the events of the scan are those of its symbols, each as if
    scanned alone, so such a symbol changes nothing for the others; and
    the progress bar is set once per symbol, failed or not, to
    [(i+1)/total], ending at [total/total = 1]. *)
Theorem scan_survives_failed_fetch (provider : string → Fetch)
    (e s n : nat) (symbols : list string) (w : World) :
  (1 ≤ e)%nat →
  ∃ w',
    scan provider e s n symbols w
    = (Ok (flat_map (symbol_events provider e s n) symbols), w') ∧
    (∀ symbol, fetch_fails provider symbol →
       symbol_events provider e s n symbol = []) ∧
    (∀ before bad after,
       symbols = before ++ bad :: after → fetch_fails provider bad →
       flat_map (symbol_events provider e s n) symbols
       = flat_map (symbol_events provider e s n) (before ++ after)) ∧
    progress_bar w'
    = progress_bar w ++ progress_values (length symbols) 0 (length symbols) ∧
    (symbols ≠ [] →
       ∃ q, last (progress_bar w') = Some q ∧ q == 1).
Proof.
  intros He.
  destruct (scan_loop_run provider e s n (length symbols) symbols He 0 [] w)
    as (w' & Hrun & Hp).
  exists w'. split_and!; [done | | | done |].
  - intros symbol. apply symbol_events_fails.
  - intros before bad after -> Hbad.
    rewrite !flat_map_app. cbn [flat_map].
    by rewrite (symbol_events_fails _ _ _ _ _ Hbad).
  - intros Hne. rewrite Hp. unfold progress_values.
    destruct symbols as [|s0 rest] using rev_ind; [done|].
    rewrite length_app. cbn [length]. rewrite Nat.add_1_r.
    rewrite seq_S, fmap_app, app_assoc. cbn [fmap list_fmap].
    rewrite last_snoc. eexists. split; [done|].
    rewrite Nat.add_0_l, Nat.add_1_r. apply Qnat_div_self. lia.
Qed.

Lemma scan_survives_failed_fetch_witness :
  (1 ≤ 3)%nat ∧
  ∃ w',
    scan demo_provider 3 1 2 ["AAA"; "BBB"; "CCC"; "DDD"] empty_world
    = (Ok (flat_map (symbol_events demo_provider 3 1 2)
             ["AAA"; "BBB"; "CCC"; "DDD"]), w') ∧
    (∀ symbol, fetch_fails demo_provider symbol →
       symbol_events demo_provider 3 1 2 symbol = []) ∧
    (∀ before bad after,
       ["AAA"; "BBB"; "CCC"; "DDD"] = before ++ bad :: after →
       fetch_fails demo_provider bad →
       flat_map (symbol_events demo_provider 3 1 2) ["AAA"; "BBB"; "CCC"; "DDD"]
       = flat_map (symbol_events demo_provider 3 1 2) (before ++ after)) ∧
    progress_bar w'
    = progress_bar empty_world
      ++ progress_values (length ["AAA"; "BBB"; "CCC"; "DDD"]) 0
           (length ["AAA"; "BBB"; "CCC"; "DDD"]) ∧
    (["AAA"; "BBB"; "CCC"; "DDD"] ≠ [] →
       ∃ q, last (progress_bar w') = Some q ∧ q == 1).
Proof.
  split; [lia|].
  apply (scan_survives_failed_fetch demo_provider 3 1 2
           ["AAA"; "BBB"; "CCC"; "DDD"] empty_world). lia.
Defined.

(** ** The lookback window *)

Lemma symbol_events_history provider e s n symbol ps :
  (1 ≤ e)%nat → provider symbol = History ps →
  Forall2 (λ i ev, row_event symbol ps e s i = Some ev)
    (filter (λ i, Crossover ps e s i ≠ Some NONE)
            (seq (length ps - n) (length ps - (length ps - n))))
    (symbol_events provider e s n symbol).
Proof.
  intros He Hp. destruct (decide (ps = [])) as [->|Hps].
  - rewrite symbol_events_fails by (by right). constructor.
  - destruct (scan_symbol_history provider e s n symbol ps He Hp Hps)
      as (evs & Hrun & Hevs).
    unfold symbol_events. by destruct (Hrun [] empty_world) as (w' & -> & _).
Qed.

(** C8.  The events kept for a symbol are, in row order, the events of
    the rows [i] with [len - N <= i < len] whose label is not NONE: a
    restriction to the last [N] rows of the series, whatever their dates;
    a crossover on an earlier row is not kept. *)
Theorem lookback_is_trailing_rows (provider : string → Fetch) (e s n : nat)
    (symbol : string) (ps : PriceSeries) :
  (1 ≤ e)%nat → (1 ≤ s)%nat → provider symbol = History ps →
  Forall2 (λ i ev, row_event symbol ps e s i = Some ev)
    (filter (λ i, Crossover ps e s i ≠ Some NONE)
            (seq (length ps - n) (length ps - (length ps - n))))
    (symbol_events provider e s n symbol) ∧
  (∀ ev, ev ∈ symbol_events provider e s n symbol ↔
     ∃ i, (length ps - n ≤ i < length ps)%nat ∧
          Crossover ps e s i ≠ Some NONE ∧
          row_event symbol ps e s i = Some ev).
Proof.
  intros He _ Hp.
  pose proof (symbol_events_history provider e s n symbol ps He Hp) as H.
  split; [done|]. intros ev. split.
  - intros Hev. apply list_elem_of_lookup in Hev as [j Hj].
    destruct (Forall2_lookup_r _ _ _ _ _ H Hj) as (i & Hi & Hrow).
    apply list_elem_of_lookup_2, list_elem_of_filter in Hi as [Hne Hi].
    apply elem_of_seq in Hi. exists i. split_and!; [lia | lia | done | done].
  - intros (i & Hi & Hne & Hrow).
    assert (Hin : i ∈ filter (λ i, Crossover ps e s i ≠ Some NONE)
                     (seq (length ps - n) (length ps - (length ps - n)))).
    { apply list_elem_of_filter. split; [done|]. apply elem_of_seq. lia. }
    apply list_elem_of_lookup in Hin as [j Hj].
    destruct (Forall2_lookup_l _ _ _ _ _ H Hj) as (ev' & Hev' & Hrow').
    rewrite Hrow in Hrow'. injection Hrow' as <-.
    by eapply list_elem_of_lookup_2.
Qed.

Lemma lookback_is_trailing_rows_witness :
  (1 ≤ 3)%nat ∧ (1 ≤ 1)%nat ∧
  demo_provider "AAA" = History [day 1 10; day 2 12; day 3 11; day 4 13] ∧
  Forall2 (λ i ev, row_event "AAA" [day 1 10; day 2 12; day 3 11; day 4 13] 3 1 i
                   = Some ev)
    (filter (λ i, Crossover [day 1 10; day 2 12; day 3 11; day 4 13] 3 1 i
                  ≠ Some NONE)
            (seq (length [day 1 10; day 2 12; day 3 11; day 4 13] - 2)
                 (length [day 1 10; day 2 12; day 3 11; day 4 13]
                  - (length [day 1 10; day 2 12; day 3 11; day 4 13] - 2))))
    (symbol_events demo_provider 3 1 2 "AAA") ∧
  (∀ ev, ev ∈ symbol_events demo_provider 3 1 2 "AAA" ↔
     ∃ i, (length [day 1 10; day 2 12; day 3 11; day 4 13] - 2 ≤ i
           < length [day 1 10; day 2 12; day 3 11; day 4 13])%nat ∧
          Crossover [day 1 10; day 2 12; day 3 11; day 4 13] 3 1 i ≠ Some NONE ∧
          row_event "AAA" [day 1 10; day 2 12; day 3 11; day 4 13] 3 1 i = Some ev).
Proof.
  split; [lia|]. split; [lia|]. split; [reflexivity|].
  apply (lookback_is_trailing_rows demo_provider 3 1 2 "AAA"
           [day 1 10; day 2 12; day 3 11; day 4 13]); [lia | lia | reflexivity].
Defined.

(** An earlier crossover is left out: with a lookback of 2 rows the DEATH
    on row 1 of the four-row series is dropped and the one on row 3 kept. *)
Example lookback_drops_earlier_crossover :
  signals [day 1 10; day 2 12; day 3 11; day 4 13] 3 1 = [NONE; DEATH; NONE; DEATH] ∧
  (ev_date <$> symbol_events demo_provider 3 1 2 "AAA") = [4%Z].
Proof. split; vm_compute; reflexivity. Qed.

(** ** The aggregation *)

Lemma select_rows_filter (P : Event → Prop) `{!∀ x, Decision (P x)} rows :
  select_rows ((λ ev, bool_decide (P ev)) <$> rows) rows = filter P rows.
Proof. apply (take_idx_nonzero_filter P [] rows). Qed.

Lemma insert_by_date_perm ev l : insert_by_date ev l ≡ₚ ev :: l.
Proof.
  induction l as [|x l IH]; [done|]. cbn [insert_by_date].
  destruct (ev_date ev <? ev_date x)%Z; [|done].
  by rewrite IH, Permutation_swap.
Qed.

Lemma sort_values_perm l : sort_values_date_desc l ≡ₚ l.
Proof.
  induction l as [|x l IH]; [done|]. cbn [sort_values_date_desc foldr].
  rewrite insert_by_date_perm. by f_equiv.
Qed.

Lemma insert_by_date_sorted ev l :
  StronglySorted date_desc l → StronglySorted date_desc (insert_by_date ev l).
Proof.
  induction 1 as [|x l Hs IH Hx]; cbn [insert_by_date].
  - repeat constructor.
  - destruct (ev_date ev <? ev_date x)%Z eqn:E.
    + apply Z.ltb_lt in E. constructor; [done|].
      rewrite insert_by_date_perm. constructor; [|done].
      unfold date_desc. lia.
    + apply Z.ltb_ge in E. constructor; [by constructor|].
      constructor; [done|].
      eapply Forall_impl; [exact Hx|]. unfold date_desc. intros; lia.
Qed.

Lemma sort_values_sorted l : StronglySorted date_desc (sort_values_date_desc l).
Proof.
  induction l as [|x l IH]; [constructor|]. by apply insert_by_date_sorted.
Qed.

Lemma StronglySorted_filter {A} (R : relation A) (P : A → Prop)
    `{!∀ x, Decision (P x)} l :
  StronglySorted R l → StronglySorted R (filter P l).
Proof.
  induction 1 as [|x l Hs IH Hx]; [constructor|].
  rewrite filter_cons. destruct (decide (P x)); [|done].
  constructor; [done|]. apply Forall_forall. intros y Hy.
  apply list_elem_of_filter in Hy as [_ Hy].
  by eapply Forall_forall in Hx.
Qed.

(** The sort does not look at anything but the date. *)
Lemma sort_values_relabel (f : Event → Event) l :
  (∀ ev, ev_date (f ev) = ev_date ev) →
  sort_values_date_desc (f <$> l) = f <$> sort_values_date_desc l.
Proof.
  intros Hf. induction l as [|x l IH]; [done|].
  cbn [fmap list_fmap sort_values_date_desc foldr].
  fold (sort_values_date_desc (f <$> l)). fold (sort_values_date_desc l).
  rewrite IH. generalize (sort_values_date_desc l) as k.
  induction k as [|y k IHk]; [done|].
  cbn [fmap list_fmap insert_by_date]. rewrite !Hf.
  destruct (ev_date x <? ev_date y)%Z; cbn [fmap list_fmap]; [|done].
  by rewrite IHk.
Qed.

(** C5 (as the code has it).  The table of the dashboard is ordered by
    date descending, most recent first, and the sort keeps the events it
    is given; it looks at the date only, so events of equal date are not
    ordered by symbol: renaming the symbols does not change the order. *)
Theorem dashboard_sorted_by_date (events : list Event) (signal_filter : list Signal) :
  StronglySorted date_desc (table_of (show_dashboard_signals events signal_filter)) ∧
  sort_values_date_desc events ≡ₚ events ∧
  (∀ f : Event → Event, (∀ ev, ev_date (f ev) = ev_date ev) →
     sort_values_date_desc (f <$> events) = f <$> sort_values_date_desc events).
Proof.
  split_and!.
  - destruct events as [|ev events]; [constructor|].
    cbn [show_dashboard_signals table_of]. rewrite select_rows_filter.
    apply StronglySorted_filter, sort_values_sorted.
  - apply sort_values_perm.
  - intros f Hf. by apply sort_values_relabel.
Qed.

(** C5, refuted as stated: two events of one date, collected for "B" and
    then for "A", are shown in that order, not by symbol ascending. *)
Lemma ties_not_ordered_by_symbol :
  table_of (show_dashboard_signals
              [signal_event "B" 5 GOLDEN; signal_event "A" 5 GOLDEN]
              [GOLDEN; DEATH])
  = [signal_event "B" 5 GOLDEN; signal_event "A" 5 GOLDEN] ∧
  ¬ date_then_symbol
      (table_of (show_dashboard_signals
                   [signal_event "B" 5 GOLDEN; signal_event "A" 5 GOLDEN]
                   [GOLDEN; DEATH])).
Proof.
  assert (H : table_of (show_dashboard_signals
                [signal_event "B" 5 GOLDEN; signal_event "A" 5 GOLDEN]
                [GOLDEN; DEATH])
              = [signal_event "B" 5 GOLDEN; signal_event "A" 5 GOLDEN])
    by (vm_compute; reflexivity).
  rewrite H. split; [reflexivity|]. intros Hord.
  destruct (Hord 0%nat 1%nat (signal_event "B" 5 GOLDEN) (signal_event "A" 5 GOLDEN))
    as [_ Hsym]; [lia | reflexivity | reflexivity |].
  specialize (Hsym eq_refl). vm_compute in Hsym. discriminate Hsym.
Qed.

(** The refutation does not hang on how ties fall: no sort that looks at
    the dates only can order both of two collections that differ by a
    swap of symbols. *)
Section any_date_sort.

Variable sorter : list Event → list Event.

Hypothesis sorter_perm : ∀ l, sorter l ≡ₚ l.

Hypothesis sorter_relabel : ∀ (f : Event → Event) l,
  (∀ ev, ev_date (f ev) = ev_date ev) → sorter (f <$> l) = f <$> sorter l.

Lemma date_sort_cannot_order_symbols :
  ¬ (date_then_symbol (sorter [signal_event "A" 5 GOLDEN; signal_event "B" 5 GOLDEN]) ∧
     date_then_symbol (sorter [signal_event "B" 5 GOLDEN; signal_event "A" 5 GOLDEN])).
Proof.
  intros [H1 H2].
  assert (Hbad : ¬ date_then_symbol
                     [signal_event "B" 5 GOLDEN; signal_event "A" 5 GOLDEN]).
  { intros Hord.
    destruct (Hord 0%nat 1%nat (signal_event "B" 5 GOLDEN)
                (signal_event "A" 5 GOLDEN))
      as [_ Hsym]; [lia | reflexivity | reflexivity |].
    specialize (Hsym eq_refl). vm_compute in Hsym. discriminate Hsym. }
  pose proof (sorter_perm [signal_event "A" 5 GOLDEN; signal_event "B" 5 GOLDEN])
    as Hp.
  symmetry in Hp. apply Permutation_length_2_inv in Hp as [Hp|Hp].
  - change [signal_event "B" 5 GOLDEN; signal_event "A" 5 GOLDEN]
      with (swap_AB <$> [signal_event "A" 5 GOLDEN; signal_event "B" 5 GOLDEN])
      in H2.
    rewrite sorter_relabel, Hp in H2 by done. by apply Hbad.
  - rewrite Hp in H1. by apply Hbad.
Qed.

End any_date_sort.

Lemma isin_nil c : ¬ isin c [].
Proof. destruct c as [x|x]; cbn; [tauto | apply not_elem_of_nil]. Qed.

Lemma filter_isin_nil l : filter (λ ev, isin (ev_crossover ev) []) l = [].
Proof.
  induction l as [|x l IH]; [done|].
  by rewrite filter_cons_False by apply isin_nil.
Qed.

(** C9.  With no event at all the dashboard shows its message and no
    table.  Otherwise the table holds exactly the events whose direction
    is in the filter, the two counts are the numbers of GOLDEN and of
    DEATH rows of that table, and an empty filter gives an empty table
    and two zero counts. *)
Theorem filter_and_counts (events : list Event) (signal_filter : list Signal) :
  match show_dashboard_signals events signal_filter with
  | NoRecentCrossovers => events = []
  | Signals table golden death =>
      events ≠ [] ∧
      table ≡ₚ filter (λ ev, isin (ev_crossover ev) signal_filter) events ∧
      (∀ ev, ev ∈ table ↔ ev ∈ events ∧ isin (ev_crossover ev) signal_filter) ∧
      golden = length (filter (λ ev, cell_is GOLDEN (ev_crossover ev)) table) ∧
      death = length (filter (λ ev, cell_is DEATH (ev_crossover ev)) table) ∧
      (signal_filter = [] → table = [] ∧ golden = 0%nat ∧ death = 0%nat)
  end.
Proof.
  destruct events as [|ev0 events]; [done|].
  cbn [show_dashboard_signals]. rewrite !select_rows_filter.
  set (sorted := sort_values_date_desc (ev0 :: events)).
  assert (Hperm : sorted ≡ₚ ev0 :: events) by apply sort_values_perm.
  split_and!; try done.
  - by rewrite Hperm.
  - intros ev. rewrite list_elem_of_filter, Hperm. tauto.
  - intros ->. by rewrite filter_isin_nil.
Qed.

(** A filter on GOLDEN alone: the DEATH event is dropped from the table
    and from the counts. *)
Example filter_and_counts_golden_only :
  show_dashboard_signals
    [signal_event "A" 3 DEATH; signal_event "B" 5 GOLDEN; signal_event "C" 4 GOLDEN]
    [GOLDEN]
  = Signals [signal_event "B" 5 GOLDEN; signal_event "C" 4 GOLDEN] 2 0.
Proof. vm_compute. reflexivity. Qed.

(** * Further properties of the code *)

(** ** Edge and error behaviour of [calculate_indicators] *)

(** Without data there is nothing to compute: for [None] and for an empty
    frame the result is [None], and the store is not touched. *)
Theorem calculate_indicators_no_data (df : option loc) (e s : nat) (w : World) :
  (df = None ∨ ∃ l fr, df = Some l ∧ frames w !! l = Some fr ∧ frame_empty fr = true) →
  calculate_indicators df e s w = (Ok None, w).
Proof.
  intros [->|(l & fr & -> & Hl & He)]; [done|].
  unfold calculate_indicators. by rewrite Hl, He.
Qed.

Lemma calculate_indicators_no_data_witness :
  (Some 1%positive = None ∨
   ∃ l fr, Some 1%positive = Some l ∧ frames (fresh_world []) !! l = Some fr ∧
           frame_empty fr = true) ∧
  calculate_indicators (Some 1%positive) 3 1 (fresh_world []) = (Ok None, fresh_world []).
Proof.
  assert (H : Some 1%positive = None ∨
              ∃ l fr, Some 1%positive = Some l ∧
                      frames (fresh_world []) !! l = Some fr ∧ frame_empty fr = true).
  { right. exists 1%positive, (frame_of_series []). split; [reflexivity|].
    split; reflexivity. }
  split; [exact H|].
  exact (calculate_indicators_no_data (Some 1%positive) 3 1 (fresh_world []) H).
Defined.

(** A frame without a [Close] column: [df['Close']] raises [KeyError]
    before anything is assigned, whatever the periods. *)
Theorem calculate_indicators_missing_close (l : loc) (fr : DataFrame)
    (e s : nat) (w : World) :
  frames w !! l = Some fr → frame_empty fr = false →
  columns fr !! "Close" = None →
  calculate_indicators (Some l) e s w = (Raise (KeyError "Close"), w).
Proof.
  intros Hl Hne Hclose. unfold calculate_indicators. rewrite Hl, Hne.
  unfold bind at 1, getitem at 1. by rewrite Hl, Hclose.
Qed.

Lemma calculate_indicators_missing_close_witness :
  frames (mkWorld {[1%positive := mkFrame [1%Z] {["Open" := Floats [Some 1]]}]} [])
    !! 1%positive
  = Some (mkFrame [1%Z] {["Open" := Floats [Some 1]]}) ∧
  frame_empty (mkFrame [1%Z] {["Open" := Floats [Some 1]]}) = false ∧
  columns (mkFrame [1%Z] {["Open" := Floats [Some 1]]}) !! "Close" = None ∧
  calculate_indicators (Some 1%positive) 3 1
    (mkWorld {[1%positive := mkFrame [1%Z] {["Open" := Floats [Some 1]]}]} [])
  = (Raise (KeyError "Close"),
     mkWorld {[1%positive := mkFrame [1%Z] {["Open" := Floats [Some 1]]}]} []).
Proof.
  split; [reflexivity|]. split; [reflexivity|]. split; [reflexivity|].
  apply (calculate_indicators_missing_close 1%positive
           (mkFrame [1%Z] {["Open" := Floats [Some 1]]}) 3 1);
    reflexivity.
Defined.

Lemma calculate_indicators_zero l fr s w :
  frames w !! l = Some fr → frame_empty fr = false →
  is_Some (columns fr !! "Close") →
  calculate_indicators (Some l) 0 s w = (Raise ValueError, w).
Proof.
  intros Hl Hne [c Hclose]. unfold calculate_indicators. rewrite Hl, Hne.
  by rewrite (bind_ok _ _ _ _ _ (getitem_ok _ _ _ _ _ Hl Hclose)).
Qed.

(** An EMA period of 0: [ewm(span=0)] raises [ValueError] before anything
    is assigned, so the frame is left as it was. *)
Theorem calculate_indicators_span_zero (l : loc) (fr : DataFrame)
    (s : nat) (w : World) :
  frames w !! l = Some fr → frame_empty fr = false →
  is_Some (columns fr !! "Close") →
  calculate_indicators (Some l) 0 s w = (Raise ValueError, w).
Proof. apply calculate_indicators_zero. Qed.

Lemma calculate_indicators_span_zero_witness :
  frames (fresh_world [day 1 10]) !! 1%positive = Some (frame_of_series [day 1 10]) ∧
  frame_empty (frame_of_series [day 1 10]) = false ∧
  is_Some (columns (frame_of_series [day 1 10]) !! "Close") ∧
  calculate_indicators (Some 1%positive) 0 5 (fresh_world [day 1 10])
  = (Raise ValueError, fresh_world [day 1 10]).
Proof.
  assert (H : is_Some (columns (frame_of_series [day 1 10]) !! "Close"))
    by (eexists; reflexivity).
  split; [reflexivity|]. split; [reflexivity|]. split; [exact H|].
  apply (calculate_indicators_span_zero 1%positive (frame_of_series [day 1 10]) 5);
    [reflexivity | reflexivity | exact H].
Defined.

(** [calculate_indicators] keeps the frame rectangular: when every column
    has one cell per row before the call, so has every column after it,
    the three new ones included. *)
Theorem calculate_indicators_well_formed (l : loc) (fr : DataFrame)
    (xs : list float) (e s : nat) (w : World) :
  frames w !! l = Some fr → well_formed fr → frame_empty fr = false →
  columns fr !! "Close" = Some (Floats xs) → (1 ≤ e)%nat →
  ∃ fr', frames (calculate_indicators (Some l) e s w).2 !! l = Some fr' ∧
         well_formed fr' ∧ length (index fr') = length (index fr) ∧
         (∀ k, k ∈ [ema_name e; sma_name s; "Crossover"] → is_Some (columns fr' !! k)).
Proof.
  intros Hl Hwf Hne Hclose He.
  rewrite (calculate_indicators_run l fr xs e s w) by done.
  exists (with_indicators fr xs e s). cbn [snd]. split_and!.
  - apply frames_set_frame.
  - pose proof (Hwf _ _ Hclose) as Hxs. cbn [col_length] in Hxs.
    intros k c. unfold with_indicators; cbn [columns index].
    rewrite !lookup_insert_Some.
    intros [[_ <-]|[_ [[_ <-]|[_ [[_ <-]|[_ Hk]]]]]]; cbn [col_length].
    + rewrite crossover_length; by rewrite ?ewm_mean_length, ?rolling_mean_length.
    + by rewrite rolling_mean_length.
    + by rewrite ewm_mean_length.
    + exact (Hwf k c Hk).
  - done.
  - intros k Hk. rewrite !elem_of_cons in Hk.
    destruct Hk as [->|[->|[->|Hk]]].
    + by rewrite with_indicators_ema.
    + by rewrite with_indicators_sma.
    + by rewrite with_indicators_crossover.
    + by apply elem_of_nil in Hk.
Qed.

Lemma well_formed_frame_of_series ps : well_formed (frame_of_series ps).
Proof.
  intros k c. unfold frame_of_series; cbn [columns index].
  rewrite length_fmap, !lookup_insert_Some, lookup_empty.
  intros H. repeat (destruct H as [[_ <-]|[_ H]]); cbn [col_length];
    rewrite ?length_fmap; done.
Qed.

Lemma calculate_indicators_well_formed_witness :
  frames (fresh_world [day 1 10; day 2 12]) !! 1%positive
  = Some (frame_of_series [day 1 10; day 2 12]) ∧
  well_formed (frame_of_series [day 1 10; day 2 12]) ∧
  frame_empty (frame_of_series [day 1 10; day 2 12]) = false ∧
  columns (frame_of_series [day 1 10; day 2 12]) !! "Close"
  = Some (Floats (closes [day 1 10; day 2 12])) ∧
  (1 ≤ 3)%nat ∧
  ∃ fr', frames (calculate_indicators (Some 1%positive) 3 2
                   (fresh_world [day 1 10; day 2 12])).2 !! 1%positive = Some fr' ∧
         well_formed fr' ∧
         length (index fr') = length (index (frame_of_series [day 1 10; day 2 12])) ∧
         (∀ k, k ∈ [ema_name 3; sma_name 2; "Crossover"] → is_Some (columns fr' !! k)).
Proof.
  split; [reflexivity|]. split; [apply well_formed_frame_of_series|].
  split; [reflexivity|]. split; [reflexivity|]. split; [lia|].
  apply (calculate_indicators_well_formed 1%positive
           (frame_of_series [day 1 10; day 2 12])
           (closes [day 1 10; day 2 12]) 3 2);
    [reflexivity | apply well_formed_frame_of_series | reflexivity | reflexivity | lia].
Defined.

(** ** Range of the two averages in exact arithmetic *)

Lemma alpha_of_span_range e : (1 ≤ e)%nat → 0 <= alpha_of_span e <= 1.
Proof.
  intros He. rewrite alpha_of_span_eq.
  assert (Hp : 0 < Qnat e + 1) by (unfold Qnat, Qlt; simpl; lia).
  assert (H2 : 2 <= Qnat e + 1).
  { unfold Qnat, Qle. simpl. lia. }
  split.
  - apply Qle_shift_div_l; [done|]. lra.
  - apply Qle_shift_div_r; [done|]. lra.
Qed.

Lemma ewm_loop_range alpha lo hi cs :
  0 <= alpha <= 1 →
  ∀ w, lo <= w <= hi → Forall (λ c, lo <= c <= hi) cs →
  Forall (λ o, ∃ y, o = Some y ∧ lo <= y <= hi)
         (ewm_loop alpha (Some w, 1) (Some <$> cs)).
Proof.
  intros [Ha0 Ha1]. induction cs as [|c cs IH]; intros w [Hw1 Hw2] Hcs;
    [constructor|].
  apply Forall_cons in Hcs as [[Hc1 Hc2] Hcs].
  cbn [fmap list_fmap ewm_loop ewm_step fst].
  set (y := if Qeq_bool w c then w
            else (1 * (1 - alpha) * w + new_weight alpha (1 * (1 - alpha)) * c)
                 / (1 * (1 - alpha) + new_weight alpha (1 * (1 - alpha)))).
  assert (Hy : lo <= y <= hi).
  { subst y. rewrite (ewm_step_value alpha w c). split; nra. }
  constructor; [by exists y|]. by apply IH.
Qed.

Lemma ewm_mean_range alpha lo hi cs :
  0 <= alpha <= 1 → Forall (λ c, lo <= c <= hi) cs →
  Forall (λ o, ∃ y, o = Some y ∧ lo <= y <= hi) (ewm_mean alpha (Some <$> cs)).
Proof.
  intros Ha Hcs. destruct cs as [|c cs]; [constructor|].
  apply Forall_cons in Hcs as [Hc Hcs]. cbn [fmap list_fmap ewm_mean].
  constructor; [by exists c|]. by apply ewm_loop_range.
Qed.

Lemma Qnat_S n : Qnat (S n) == Qnat n + 1.
Proof. unfold Qnat. rewrite Nat2Z.inj_succ, <- Z.add_1_r, inject_Z_plus. reflexivity. Qed.

Lemma Qsum_range lo hi l :
  Forall (λ c, lo <= c <= hi) l →
  Qnat (length l) * lo <= Qsum l <= Qnat (length l) * hi.
Proof.
  induction 1 as [|c l [Hc1 Hc2] _ [IH1 IH2]].
  - rewrite Qsum_nil. cbn [length]. change (Qnat 0) with 0. split; lra.
  - rewrite Qsum_cons. cbn [length]. rewrite Qnat_S. split; lra.
Qed.

Lemma closes_range (ps : PriceSeries) lo hi :
  (∀ p, p ∈ ps → lo <= close p <= hi) →
  Forall (λ c, lo <= c <= hi) (close <$> ps).
Proof.
  intros H. apply Forall_fmap, Forall_forall. intros p Hp. by apply H.
Qed.

Lemma EMA_range (ps : PriceSeries) (e s : nat) (lo hi : Q) :
  (1 ≤ e)%nat → (∀ p, p ∈ ps → lo <= close p <= hi) →
  ∀ t y, EMA ps e s t = Some (Some y) → lo <= y <= hi.
Proof.
  intros He Hps t y. rewrite EMA_series, closes_fmap by done. intros Hy.
  pose proof (ewm_mean_range (alpha_of_span e) lo hi (close <$> ps)
                (alpha_of_span_range e He) (closes_range ps lo hi Hps)) as H.
  rewrite Forall_lookup in H. destruct (H t _ Hy) as (y' & [= <-] & Hr). done.
Qed.

Lemma SMA_range (ps : PriceSeries) (e s : nat) (lo hi : Q) :
  (1 ≤ e)%nat → (1 ≤ s)%nat → (∀ p, p ∈ ps → lo <= close p <= hi) →
  ∀ t y, SMA ps e s t = Some (Some y) → lo <= y <= hi.
Proof.
  intros He Hs Hps t y. rewrite SMA_series, closes_fmap by done. intros Hy.
  pose proof (lookup_lt_Some _ _ _ Hy) as Ht.
  rewrite rolling_mean_length, !length_fmap in Ht.
  destruct (decide (t < s - 1)%nat) as [Hlt|Hge].
  { rewrite rolling_mean_undefined in Hy by (by rewrite ?length_fmap). done. }
  destruct (rolling_mean_defined s (close <$> ps) t)
    as (v & Hv & Hmean); [done | by rewrite length_fmap | lia |].
  rewrite Hv in Hy. injection Hy as <-.
  set (win := slice (close <$> ps) (t + 1 - s) (t + 1)) in *.
  assert (Hlen : length win = s).
  { subst win. rewrite slice_length by (rewrite length_fmap; lia). lia. }
  assert (Hwin : Forall (λ c, lo <= c <= hi) win).
  { subst win. unfold slice. apply Forall_take, Forall_drop.
    by apply closes_range. }
  destruct (Qsum_range lo hi win Hwin) as [H1 H2]. rewrite Hlen in H1, H2.
  pose proof (Qnat_pos s Hs) as Hpos.
  rewrite Hmean. split.
  - apply Qle_shift_div_l; [done|]. lra.
  - apply Qle_shift_div_r; [done|]. lra.
Qed.

(** ** Series that cannot cross *)

Lemma signals_classify ps e s :
  (1 ≤ e)%nat →
  signals ps e s
  = classify Undef (zip_with rel_of (ewm_mean (alpha_of_span e) (closes ps))
                                    (rolling_mean s (closes ps))).
Proof.
  intros He. rewrite signals_series by done. apply crossover_classify.
  by rewrite ewm_mean_length, rolling_mean_length.
Qed.

Lemma Crossover_signals ps e s i :
  (1 ≤ e)%nat → Crossover ps e s i = signals ps e s !! i.
Proof. intros He. by rewrite Crossover_series, signals_series. Qed.

Lemma classify_calm rs : ∀ p,
  Forall calm rs → classify p rs = replicate (length rs) NONE.
Proof.
  induction rs as [|r rs IH]; intros p Hrs; [done|].
  apply Forall_cons in Hrs as [Hr Hrs]. cbn [classify length replicate].
  rewrite (IH r Hrs). by destruct Hr as [-> | ->], p.
Qed.

Lemma rel_of_tie a b : a == b → rel_of (Some a) (Some b) = Tie.
Proof.
  intros E. unfold rel_of.
  assert (Qlt_bool b a = false) as ->.
  { destruct (Qlt_bool b a) eqn:H; [|done]. apply Qlt_bool_iff in H.
    rewrite E in H. by apply Qlt_irrefl in H. }
  assert (Qlt_bool a b = false) as ->; [|done].
  destruct (Qlt_bool a b) eqn:H; [|done]. apply Qlt_bool_iff in H.
  rewrite E in H. by apply Qlt_irrefl in H.
Qed.

(** When the two averages are equal wherever both are numbers, every row
    is calm and no label is an event. *)
Lemma signals_of_equal_averages ps e s :
  (1 ≤ e)%nat →
  (∀ t a b, EMA ps e s t = Some (Some a) → SMA ps e s t = Some (Some b) → a == b) →
  signals ps e s = replicate (length ps) NONE.
Proof.
  intros He Heq. rewrite signals_classify by done.
  rewrite classify_calm.
  - by rewrite length_zip_with, ewm_mean_length, rolling_mean_length,
      closes_length, Nat.min_id.
  - apply Forall_lookup. intros t r Hr. rewrite lookup_zip_with in Hr.
    destruct (ewm_mean (alpha_of_span e) (closes ps) !! t) as [x|] eqn:Hx; [|done].
    destruct (rolling_mean s (closes ps) !! t) as [y|] eqn:Hy; [|done].
    cbn in Hr. injection Hr as <-.
    destruct x as [a|], y as [b|]; try by right.
    left. apply rel_of_tie. apply (Heq t).
    + by rewrite EMA_series.
    + by rewrite SMA_series.
Qed.

Lemma no_signal_no_events provider e s n symbol ps :
  (1 ≤ e)%nat → provider symbol = History ps →
  signals ps e s = replicate (length ps) NONE →
  symbol_events provider e s n symbol = [].
Proof.
  intros He Hp Hsig.
  pose proof (symbol_events_history provider e s n symbol ps He Hp) as H.
  assert (Hnil : filter (λ i, Crossover ps e s i ≠ Some NONE)
                   (seq (length ps - n) (length ps - (length ps - n))) = []).
  { apply elem_of_nil_inv. intros i Hi.
    apply list_elem_of_filter in Hi as [Hne Hi]. apply elem_of_seq in Hi.
    apply Hne. rewrite Crossover_signals, Hsig by done.
    apply lookup_replicate_2. lia. }
  rewrite Hnil in H. by apply Forall2_nil_inv_l in H.
Qed.

(** A history of at most [smaPeriod] rows has no crossover at all, so the
    scan keeps nothing of it; with fewer than [smaPeriod] rows the SMA is
    NaN on every row. *)
Theorem short_history_no_signal (ps : PriceSeries) (e s : nat) :
  (1 ≤ e)%nat → (length ps ≤ s)%nat →
  signals ps e s = replicate (length ps) NONE ∧
  ((length ps < s)%nat → ∀ t, (t < length ps)%nat → SMA ps e s t = Some None) ∧
  (∀ provider n symbol, provider symbol = History ps →
     symbol_events provider e s n symbol = []).
Proof.
  intros He Hlen.
  assert (Hnan : ∀ t, (t < length ps)%nat → (t < s - 1)%nat →
                      SMA ps e s t = Some None).
  { intros t Ht Hts. rewrite SMA_series, closes_fmap by done.
    apply rolling_mean_undefined; [by rewrite length_fmap | done]. }
  assert (Hsig : signals ps e s = replicate (length ps) NONE).
  { rewrite signals_classify by done.
    set (rels := zip_with rel_of _ _).
    assert (Hrn : length rels = length ps).
    { subst rels. by rewrite length_zip_with, ewm_mean_length,
        rolling_mean_length, closes_length, Nat.min_id. }
    rewrite classify_quiet; [by rewrite Hrn|].
    intros t Ht. rewrite Hrn in Ht. subst rels. rewrite lookup_zip_with.
    destruct (lookup_lt_is_Some_2 (ewm_mean (alpha_of_span e) (closes ps)) t)
      as [x ->]; [rewrite ewm_mean_length, closes_length; lia|].
    specialize (Hnan t ltac:(lia) ltac:(lia)).
    rewrite SMA_series in Hnan by done. rewrite Hnan. cbn.
    by rewrite rel_of_NaN. }
  split_and!; [done | |].
  - intros Hlt t Ht. apply Hnan; lia.
  - intros provider n symbol Hp. by eapply no_signal_no_events.
Qed.

Lemma short_history_no_signal_witness :
  (1 ≤ 3)%nat ∧ (length [day 1 10; day 2 12] ≤ 2)%nat ∧
  signals [day 1 10; day 2 12] 3 2 = replicate (length [day 1 10; day 2 12]) NONE ∧
  ((length [day 1 10; day 2 12] < 2)%nat →
     ∀ t, (t < length [day 1 10; day 2 12])%nat →
          SMA [day 1 10; day 2 12] 3 2 t = Some None) ∧
  (∀ provider n symbol, provider symbol = History [day 1 10; day 2 12] →
     symbol_events provider 3 2 n symbol = []).
Proof.
  split; [lia|]. split; [simpl; lia|].
  apply (short_history_no_signal [day 1 10; day 2 12] 3 2); [lia | simpl; lia].
Defined.

(** A flat series: both averages equal the close on every row where they
    are numbers, and there is no crossover. *)
Theorem constant_series_no_signal (ps : PriceSeries) (e s : nat) (c : Q) :
  (1 ≤ e)%nat → (1 ≤ s)%nat → (∀ p, p ∈ ps → close p == c) →
  (∀ t y, EMA ps e s t = Some (Some y) → y == c) ∧
  (∀ t y, SMA ps e s t = Some (Some y) → y == c) ∧
  signals ps e s = replicate (length ps) NONE.
Proof.
  intros He Hs Hc.
  assert (Hrange : ∀ p, p ∈ ps → c <= close p <= c).
  { intros p Hp. rewrite (Hc p Hp). split; apply Qle_refl. }
  assert (Hema : ∀ t y, EMA ps e s t = Some (Some y) → y == c).
  { intros t y Hy.
    destruct (EMA_range ps e s c c He Hrange t y Hy). by apply Qle_antisym. }
  assert (Hsma : ∀ t y, SMA ps e s t = Some (Some y) → y == c).
  { intros t y Hy.
    destruct (SMA_range ps e s c c He Hs Hrange t y Hy). by apply Qle_antisym. }
  split_and!; [done..|].
  apply signals_of_equal_averages; [done|].
  intros t a b Ha Hb. by rewrite (Hema t a Ha), (Hsma t b Hb).
Qed.

Lemma constant_series_no_signal_witness :
  (1 ≤ 3)%nat ∧ (1 ≤ 2)%nat ∧
  (∀ p, p ∈ [day 1 100; day 2 100; day 3 100] → close p == 100) ∧
  (∀ t y, EMA [day 1 100; day 2 100; day 3 100] 3 2 t = Some (Some y) → y == 100) ∧
  (∀ t y, SMA [day 1 100; day 2 100; day 3 100] 3 2 t = Some (Some y) → y == 100) ∧
  signals [day 1 100; day 2 100; day 3 100] 3 2
  = replicate (length [day 1 100; day 2 100; day 3 100]) NONE.
Proof.
  assert (H : ∀ p, p ∈ [day 1 100; day 2 100; day 3 100] → close p == 100).
  { intros p Hp. rewrite !elem_of_cons in Hp.
    destruct Hp as [->|[->|[->|Hp]]]; [reflexivity..|].
    by apply elem_of_nil in Hp. }
  split; [lia|]. split; [lia|]. split; [exact H|].
  apply (constant_series_no_signal [day 1 100; day 2 100; day 3 100] 3 2 100);
    [lia | lia | exact H].
Defined.

Lemma EMA_unit_period ps s t p :
  ps !! t = Some p → ∃ y, EMA ps 1 s t = Some (Some y) ∧ y == close p.
Proof.
  intros Hp. rewrite EMA_series, closes_fmap by done.
  destruct ps as [|p0 ps]; [done|]. destruct t as [|t].
  - injection Hp as ->. by eexists.
  - change (ps !! t = Some p) in Hp.
    assert (Hc : (close <$> ps) !! t = Some (close p))
      by (by rewrite list_lookup_fmap, Hp).
    destruct (ewm_loop_recurrence (alpha_of_span 1) (close <$> ps)
                (close p0) t (close p) Hc) as (y & y' & H1 & _ & H3).
    exists y. split; [done|]. rewrite H3.
    assert (Ha : alpha_of_span 1 == 1) by reflexivity.
    rewrite Ha. ring.
Qed.

Lemma SMA_unit_period ps e t p :
  (1 ≤ e)%nat → ps !! t = Some p →
  ∃ y, SMA ps e 1 t = Some (Some y) ∧ y == close p.
Proof.
  intros He Hp. rewrite SMA_series, closes_fmap by done.
  pose proof (lookup_lt_Some _ _ _ Hp) as Ht.
  destruct (rolling_mean_defined 1 (close <$> ps) t)
    as (v & Hv & Hmean); [done | by rewrite length_fmap | lia |].
  exists v. split; [done|]. rewrite Hmean.
  assert (Hc : (close <$> ps) !! t = Some (close p))
    by (by rewrite list_lookup_fmap, Hp).
  unfold slice. replace (t + 1 - 1)%nat with t by lia.
  replace (t + 1 - t)%nat with 1%nat by lia.
  rewrite (drop_S _ _ _ Hc).
  change (take 1 (close p :: drop (S t) (close <$> ps))) with [close p].
  rewrite Qsum_cons, Qsum_nil. change (Qnat 1) with 1. field.
Qed.

(** A period of 1 makes an average follow the close: [alpha] is 1 for the
    EMA and the window is the row itself for the SMA.  With both periods 1
    the two averages coincide and there is never a crossover. *)
Theorem unit_periods_follow_close (ps : PriceSeries) :
  (∀ s t p, ps !! t = Some p →
     ∃ y, EMA ps 1 s t = Some (Some y) ∧ y == close p) ∧
  (∀ e t p, (1 ≤ e)%nat → ps !! t = Some p →
     ∃ y, SMA ps e 1 t = Some (Some y) ∧ y == close p) ∧
  signals ps 1 1 = replicate (length ps) NONE.
Proof.
  split_and!.
  - intros s t p. apply EMA_unit_period.
  - intros e t p. apply SMA_unit_period.
  - apply signals_of_equal_averages; [done|]. intros t a b Ha Hb.
    assert (Ht : (t < length ps)%nat).
    { rewrite EMA_series in Ha by done. apply lookup_lt_Some in Ha.
      by rewrite ewm_mean_length, closes_length in Ha. }
    destruct (lookup_lt_is_Some_2 ps t Ht) as [p Hp].
    destruct (EMA_unit_period ps 1 t p Hp) as (y1 & E1 & Hy1).
    destruct (SMA_unit_period ps 1 t p ltac:(lia) Hp) as (y2 & E2 & Hy2).
    rewrite Ha in E1. rewrite Hb in E2.
    injection E1 as <-. injection E2 as <-. by rewrite Hy1, Hy2.
Qed.

(** ** What the scan collects *)

(** A symbol adds at most [days_to_look_back] events, and no more than its
    history has rows. *)
Theorem lookback_bounds_events (provider : string → Fetch) (e s n : nat)
    (symbol : string) :
  (1 ≤ e)%nat →
  (length (symbol_events provider e s n symbol) ≤ n)%nat ∧
  (∀ ps, provider symbol = History ps →
     (length (symbol_events provider e s n symbol) ≤ length ps)%nat).
Proof.
  intros He. destruct (provider symbol) as [|ps] eqn:Hp.
  - rewrite symbol_events_fails by (by left). cbn. split; [lia|]. intros; lia.
  - pose proof (symbol_events_history provider e s n symbol ps He Hp) as H.
    apply Forall2_length in H. rewrite <- H.
    pose proof (length_filter (λ i, Crossover ps e s i ≠ Some NONE)
                  (seq (length ps - n) (length ps - (length ps - n)))) as Hf.
    rewrite length_seq in Hf. split; [lia|]. intros ps' [= <-]. lia.
Qed.

Lemma lookback_bounds_events_witness :
  (1 ≤ 3)%nat ∧
  (length (symbol_events demo_provider 3 1 2 "AAA") ≤ 2)%nat ∧
  (∀ ps, demo_provider "AAA" = History ps →
     (length (symbol_events demo_provider 3 1 2 "AAA") ≤ length ps)%nat).
Proof.
  split; [lia|]. apply (lookback_bounds_events demo_provider 3 1 2 "AAA"). lia.
Defined.

Lemma symbol_events_origin provider e s n symbol ev :
  (1 ≤ e)%nat → ev ∈ symbol_events provider e s n symbol →
  ev_symbol ev = symbol ∧ directional ev ∧
  ∃ ps p, provider symbol = History ps ∧ p ∈ ps ∧
          ev_date ev = date p ∧ ev_price ev = Float (Some (close p)).
Proof.
  intros He Hev. destruct (provider symbol) as [|ps] eqn:Hp.
  { rewrite symbol_events_fails in Hev by (by left). by apply elem_of_nil in Hev. }
  pose proof (symbol_events_history provider e s n symbol ps He Hp) as H.
  apply list_elem_of_lookup in Hev as [j Hj].
  destruct (Forall2_lookup_r _ _ _ _ _ H Hj) as (i & Hi & Hrow).
  apply list_elem_of_lookup_2, list_elem_of_filter in Hi as [Hne _].
  unfold row_event in Hrow.
  destruct (ps !! i) as [p|] eqn:Hpi; [|done].
  destruct (EMA ps e s i) as [ema|]; [|done].
  destruct (SMA ps e s i) as [sma|]; [|done].
  destruct (Crossover ps e s i) as [c|]; [|done].
  injection Hrow as <-. cbn. split_and!.
  - done.
  - unfold directional. cbn. destruct c; [by left | by right | done].
  - exists ps, p. split_and!; try done. by eapply list_elem_of_lookup_2.
Qed.

(** Every event of a scan belongs to a symbol of the universe whose fetch
    gave data, has a direction (its label is GOLDEN or DEATH, never NONE),
    and carries the date and the close of a row of that symbol's
    history. *)
Theorem scan_events_attributed (provider : string → Fetch) (e s n : nat)
    (symbols : list string) (w : World) :
  (1 ≤ e)%nat →
  ∃ events w',
    scan provider e s n symbols w = (Ok events, w') ∧
    ∀ ev, ev ∈ events →
      ev_symbol ev ∈ symbols ∧ ¬ fetch_fails provider (ev_symbol ev) ∧
      directional ev ∧
      ∃ ps p, provider (ev_symbol ev) = History ps ∧ p ∈ ps ∧
              ev_date ev = date p ∧ ev_price ev = Float (Some (close p)).
Proof.
  intros He.
  destruct (scan_loop_run provider e s n (length symbols) symbols He 0 [] w)
    as (w' & Hrun & _).
  eexists _, w'. split; [exact Hrun|]. intros ev Hev.
  rewrite app_nil_l in Hev. apply list_elem_of_In, in_flat_map in Hev
    as (symbol & Hsym & Hev).
  apply list_elem_of_In in Hsym, Hev.
  destruct (symbol_events_origin provider e s n symbol ev He Hev)
    as (-> & Hdir & ps & p & Hp & Hin & Hd & Hc).
  split_and!; try done.
  - intros [Hf|Hf]; rewrite Hp in Hf; [done|].
    injection Hf as ->. by apply elem_of_nil in Hin.
  - by exists ps, p.
Qed.

Lemma scan_events_attributed_witness :
  (1 ≤ 3)%nat ∧
  ∃ events w',
    scan demo_provider 3 1 2 ["AAA"; "BBB"] empty_world = (Ok events, w') ∧
    ∀ ev, ev ∈ events →
      ev_symbol ev ∈ ["AAA"; "BBB"] ∧ ¬ fetch_fails demo_provider (ev_symbol ev) ∧
      directional ev ∧
      ∃ ps p, demo_provider (ev_symbol ev) = History ps ∧ p ∈ ps ∧
              ev_date ev = date p ∧ ev_price ev = Float (Some (close p)).
Proof.
  split; [lia|].
  apply (scan_events_attributed demo_provider 3 1 2 ["AAA"; "BBB"] empty_world). lia.
Defined.

(** ** A scan that finds no data, and a scan with a period of 0 *)

Lemma scan_loop_fails_prefix provider e s n total before :
  Forall (fetch_fails provider) before →
  ∀ i acc w,
  ∃ w1, progress_bar w1 = progress_bar w ++ progress_values total i (length before) ∧
        ∀ rest, scan_loop provider e s n total i (before ++ rest) acc w
                = scan_loop provider e s n total (i + length before) rest acc w1.
Proof.
  induction 1 as [|symbol before Hf _ IH]; intros i acc w.
  - exists w. split; [by rewrite app_nil_r|]. intros rest. by rewrite Nat.add_0_r.
  - destruct (scan_symbol_fails provider e s n symbol acc w Hf) as (w1 & Hsym & Hp1).
    set (w2 := mkWorld (frames w1) (progress_bar w1 ++ [Qnat (i + 1) / Qnat total])).
    destruct (IH (S i) acc w2) as (w3 & Hp3 & Hloop).
    exists w3. split.
    + rewrite Hp3. subst w2. cbn [progress_bar length]. rewrite Hp1.
      unfold progress_values. cbn [seq fmap list_fmap]. by rewrite <- app_assoc.
    + intros rest. cbn [app scan_loop]. rewrite (bind_ok _ _ _ _ _ Hsym).
      unfold bind at 1, set_progress at 1. fold w2.
      rewrite Hloop. f_equal. cbn [length]. lia.
Qed.

(** When no symbol of the universe gives data the scan still runs to the
    end, for any periods: no event, the progress bar set once per symbol,
    and the dashboard shows its "No recent crossovers found" message. *)
Theorem scan_without_data (provider : string → Fetch) (e s n : nat)
    (symbols : list string) (w : World) :
  Forall (fetch_fails provider) symbols →
  ∃ w', scan provider e s n symbols w = (Ok [], w') ∧
        progress_bar w'
        = progress_bar w ++ progress_values (length symbols) 0 (length symbols) ∧
        ∀ signal_filter, show_dashboard_signals [] signal_filter = NoRecentCrossovers.
Proof.
  intros Hf.
  destruct (scan_loop_fails_prefix provider e s n (length symbols) symbols Hf 0 [] w)
    as (w' & Hp & Hloop).
  exists w'. split_and!; [|done|done].
  unfold scan. rewrite <- (app_nil_r symbols) at 2. by rewrite Hloop.
Qed.

Lemma scan_without_data_witness :
  Forall (fetch_fails demo_provider) ["BBB"; "CCC"] ∧
  ∃ w', scan demo_provider 0 1 2 ["BBB"; "CCC"] empty_world = (Ok [], w') ∧
        progress_bar w'
        = progress_bar empty_world
          ++ progress_values (length ["BBB"; "CCC"]) 0 (length ["BBB"; "CCC"]) ∧
        ∀ signal_filter, show_dashboard_signals [] signal_filter = NoRecentCrossovers.
Proof.
  assert (H : Forall (fetch_fails demo_provider) ["BBB"; "CCC"]).
  { apply Forall_cons_2; [left; reflexivity|].
    apply Forall_cons_2; [right; reflexivity|]. apply Forall_nil_2. }
  split; [exact H|].
  exact (scan_without_data demo_provider 0 1 2 ["BBB"; "CCC"] empty_world H).
Defined.

Lemma scan_symbol_zero provider s n symbol ps acc w :
  provider symbol = History ps → ps ≠ [] →
  ∃ w', scan_symbol provider 0 s n symbol acc w = (Raise ValueError, w') ∧
        progress_bar w' = progress_bar w.
Proof.
  intros Hp Hps. eexists. split.
  - unfold scan_symbol.
    rewrite (bind_ok _ _ _ _ _ (fetch_stock_data_history _ _ _ _ Hp Hps)).
    rewrite (bind_raise _ _ _ _ _
               (calculate_indicators_zero _ (frame_of_series ps) s _
                  (frames_set_frame _ _ _)
                  ltac:(by rewrite frame_of_series_empty, bool_decide_eq_false_2)
                  ltac:(by eexists))).
    reflexivity.
  - done.
Qed.

(** A bad parameter is fatal where a failed fetch is not: with an EMA
    period of 0 the scan raises [ValueError] at the first symbol that has
    data; the progress bar has been set for the symbols before it only. *)
Theorem scan_aborts_on_zero_span (provider : string → Fetch) (s n : nat)
    (before after : list string) (symbol : string) (ps : PriceSeries) (w : World) :
  Forall (fetch_fails provider) before →
  provider symbol = History ps → ps ≠ [] →
  ∃ w', scan provider 0 s n (before ++ symbol :: after) w = (Raise ValueError, w') ∧
        progress_bar w'
        = progress_bar w
          ++ progress_values (length (before ++ symbol :: after)) 0 (length before).
Proof.
  intros Hf Hp Hps.
  destruct (scan_loop_fails_prefix provider 0 s n
              (length (before ++ symbol :: after)) before Hf 0 [] w)
    as (w1 & Hp1 & Hloop).
  destruct (scan_symbol_zero provider s n symbol ps [] w1 Hp Hps) as (w2 & Hsym & Hp2).
  exists w2. split; [|by rewrite Hp2].
  unfold scan. rewrite Hloop. cbn [scan_loop].
  by rewrite (bind_raise _ _ _ _ _ Hsym).
Qed.

Lemma scan_aborts_on_zero_span_witness :
  Forall (fetch_fails demo_provider) ["BBB"] ∧
  demo_provider "AAA" = History [day 1 10; day 2 12; day 3 11; day 4 13] ∧
  [day 1 10; day 2 12; day 3 11; day 4 13] ≠ [] ∧
  ∃ w', scan demo_provider 0 1 2 (["BBB"] ++ "AAA" :: ["CCC"]) empty_world
        = (Raise ValueError, w') ∧
        progress_bar w'
        = progress_bar empty_world
          ++ progress_values (length (["BBB"] ++ "AAA" :: ["CCC"])) 0 (length ["BBB"]).
Proof.
  assert (H : Forall (fetch_fails demo_provider) ["BBB"]).
  { apply Forall_cons_2; [left; reflexivity|]. apply Forall_nil_2. }
  split; [exact H|]. split; [reflexivity|]. split; [discriminate|].
  apply (scan_aborts_on_zero_span demo_provider 1 2 ["BBB"] ["CCC"] "AAA"
           [day 1 10; day 2 12; day 3 11; day 4 13] empty_world);
    [exact H | reflexivity | discriminate].
Defined.

(** ** Counts and filters of the dashboard *)

Lemma directional_counts l :
  Forall directional l →
  (length (filter (λ ev, cell_is GOLDEN (ev_crossover ev)) l)
   + length (filter (λ ev, cell_is DEATH (ev_crossover ev)) l)
   = length l)%nat.
Proof.
  induction 1 as [|ev l Hev _ IH]; [done|].
  rewrite !filter_cons.
  destruct Hev as [Hev|Hev]; repeat case_decide; rewrite Hev in *;
    cbn in *; try done; lia.
Qed.

Lemma scan_events_directional provider e s n symbols :
  (1 ≤ e)%nat → Forall directional (flat_map (symbol_events provider e s n) symbols).
Proof.
  intros He. apply Forall_forall. intros ev Hev.
  apply list_elem_of_In, in_flat_map in Hev as (symbol & _ & Hev).
  apply list_elem_of_In in Hev.
  by destruct (symbol_events_origin provider e s n symbol ev He Hev) as (_ & ? & _).
Qed.

(** The two counters of the dashboard add up to the number of rows of the
    table, whatever the filter: every event of a scan is a GOLDEN or a
    DEATH one. *)
Theorem counts_add_up (provider : string → Fetch) (e s n : nat)
    (symbols : list string) (signal_filter : list Signal) :
  (1 ≤ e)%nat →
  match show_dashboard_signals
          (flat_map (symbol_events provider e s n) symbols) signal_filter with
  | NoRecentCrossovers => flat_map (symbol_events provider e s n) symbols = []
  | Signals table golden death => (golden + death = length table)%nat
  end.
Proof.
  intros He. pose proof (scan_events_directional provider e s n symbols He) as Hdir.
  destruct (flat_map (symbol_events provider e s n) symbols) as [|ev0 events];
    [done|].
  cbn [show_dashboard_signals]. rewrite !select_rows_filter.
  apply directional_counts.
  apply Forall_forall. intros ev Hev.
  apply list_elem_of_filter in Hev as [_ Hev].
  rewrite sort_values_perm in Hev. by eapply Forall_forall in Hdir.
Qed.

Lemma counts_add_up_witness :
  (1 ≤ 3)%nat ∧
  match show_dashboard_signals
          (flat_map (symbol_events demo_provider 3 1 2) ["AAA"; "DDD"]) [GOLDEN] with
  | NoRecentCrossovers =>
      flat_map (symbol_events demo_provider 3 1 2) ["AAA"; "DDD"] = []
  | Signals table golden death => (golden + death = length table)%nat
  end.
Proof.
  split; [lia|].
  apply (counts_add_up demo_provider 3 1 2 ["AAA"; "DDD"] [GOLDEN]). lia.
Defined.

Ltac solve_isin :=
  cbn; rewrite ?elem_of_cons, ?elem_of_nil; intuition congruence.

Lemma filter_isin_split l :
  filter (λ ev, isin (ev_crossover ev) [GOLDEN]) l
  ++ filter (λ ev, isin (ev_crossover ev) [DEATH]) l
  ≡ₚ filter (λ ev, isin (ev_crossover ev) [GOLDEN; DEATH]) l.
Proof.
  induction l as [|ev l IH]; [done|]. rewrite !filter_cons.
  destruct (ev_crossover ev) as [x|[| |]]; cbn.
  - done.
  - rewrite decide_True by solve_isin. rewrite decide_False by solve_isin.
    rewrite decide_True by solve_isin. cbn. by rewrite IH.
  - rewrite decide_False by solve_isin. rewrite decide_True by solve_isin.
    rewrite decide_True by solve_isin. by rewrite <- Permutation_middle, IH.
  - rewrite !decide_False by solve_isin. done.
Qed.

(** The filter splits the table: the rows shown for GOLDEN and the rows
    shown for DEATH are together the rows shown for both; and with both
    selected (the default) no event of a scan is hidden. *)
Theorem filter_splits_table (events : list Event) :
  table_of (show_dashboard_signals events [GOLDEN])
  ++ table_of (show_dashboard_signals events [DEATH])
  ≡ₚ table_of (show_dashboard_signals events [GOLDEN; DEATH]) ∧
  (Forall directional events →
   table_of (show_dashboard_signals events [GOLDEN; DEATH]) ≡ₚ events).
Proof.
  destruct events as [|ev0 events]; [done|].
  cbn [show_dashboard_signals table_of]. rewrite !select_rows_filter. split.
  - apply filter_isin_split.
  - intros Hdir. rewrite <- (sort_values_perm (ev0 :: events)) at 2.
    rewrite <- (sort_values_perm (ev0 :: events)) in Hdir.
    induction Hdir as [|ev l Hev _ IH]; [done|].
    rewrite filter_cons_True; [by f_equiv|].
    destruct Hev as [Hev|Hev]; rewrite Hev; solve_isin.
Qed.

(** ** The symbols of the universe *)

Lemma lstrip_length s : (String.length (lstrip s) ≤ String.length s)%nat.
Proof.
  induction s as [|a s IH]; cbn [lstrip]; [done|].
  destruct (is_space a); cbn [String.length]; lia.
Qed.

Lemma lstrip_fixed a s : lstrip (String a s) = String a s → is_space a = false.
Proof.
  cbn [lstrip]. destruct (is_space a); [|done]. intros E.
  pose proof (lstrip_length s) as H. rewrite E in H. cbn [String.length] in H. lia.
Qed.

Lemma lstrip_idem s : lstrip (lstrip s) = lstrip s.
Proof.
  induction s as [|a s IH]; cbn [lstrip]; [done|].
  destruct (is_space a) eqn:E; [done|]. cbn [lstrip]. by rewrite E.
Qed.

Lemma rstrip_idem s : rstrip (rstrip s) = rstrip s.
Proof.
  induction s as [|a s IH]; [done|]. cbn [rstrip].
  destruct (rstrip s) as [|b r] eqn:Hr.
  - destruct (is_space a) eqn:E; [done|]. cbn [rstrip]. by rewrite E.
  - cbn [rstrip]. cbn [rstrip] in IH. by rewrite IH.
Qed.

Lemma lstrip_rstrip_fixed t : lstrip t = t → lstrip (rstrip t) = rstrip t.
Proof.
  destruct t as [|a t]; [done|]. intros E%lstrip_fixed. cbn [rstrip].
  destruct (rstrip t); rewrite ?E; cbn [lstrip]; by rewrite E.
Qed.

Lemma strip_trimmed s : lstrip (strip s) = strip s ∧ rstrip (strip s) = strip s.
Proof.
  unfold strip. split.
  - apply lstrip_rstrip_fixed, lstrip_idem.
  - apply rstrip_idem.
Qed.

Lemma strip_idem s : strip (strip s) = strip s.
Proof.
  destruct (strip_trimmed s) as [H1 H2]. unfold strip at 1. by rewrite H1, H2.
Qed.

Lemma is_space_dash a :
  is_space (if Ascii.eqb a "." then "-"%char else a) = is_space a.
Proof.
  destruct (Ascii.eqb a ".") eqn:E; [|done].
  apply Ascii.eqb_eq in E as ->. reflexivity.
Qed.

Lemma lstrip_replace s :
  lstrip (replace_char "." "-" s) = replace_char "." "-" (lstrip s).
Proof.
  induction s as [|a s IH]; [done|]. cbn [replace_char lstrip].
  rewrite is_space_dash. by destruct (is_space a).
Qed.

Lemma rstrip_replace s :
  rstrip (replace_char "." "-" s) = replace_char "." "-" (rstrip s).
Proof.
  induction s as [|a s IH]; [done|]. cbn [replace_char rstrip].
  rewrite IH, is_space_dash.
  destruct (rstrip s); cbn [replace_char]; [by destruct (is_space a)|done].
Qed.

Lemma strip_replace s :
  strip (replace_char "." "-" s) = replace_char "." "-" (strip s).
Proof. unfold strip. by rewrite lstrip_replace, rstrip_replace. Qed.

Lemma replace_no_dot s : ¬ occurs "." (replace_char "." "-" s).
Proof.
  induction s as [|a s IH]; cbn [replace_char occurs]; [tauto|].
  intros [E|H]; [|done].
  destruct (Ascii.eqb a ".") eqn:Ha; [discriminate E|].
  apply Ascii.eqb_neq in Ha. done.
Qed.

Lemma replace_dot_free s : ¬ occurs "." s → replace_char "." "-" s = s.
Proof.
  induction s as [|a s IH]; cbn [replace_char occurs]; [done|]. intros H.
  rewrite IH by tauto.
  destruct (Ascii.eqb a ".") eqn:Ha; [|done].
  apply Ascii.eqb_eq in Ha. tauto.
Qed.

Lemma normalize_clean td :
  ¬ occurs "." (normalize td) ∧ strip (normalize td) = normalize td.
Proof.
  unfold normalize. split; [apply replace_no_dot|].
  by rewrite strip_replace, strip_idem.
Qed.

Lemma symbols_of_rows_returns rows : ∀ symbols,
  Forall (λ row, row ≠ []) rows →
  symbols_of_rows rows symbols
  = Returns (symbols ++ ((λ row, normalize (default EmptyString (head row))) <$> rows)).
Proof.
  induction rows as [|row rows IH]; intros symbols Hrows.
  - by rewrite app_nil_r.
  - apply Forall_cons in Hrows as [Hrow Hrows].
    destruct row as [|td row]; [done|]. cbn [symbols_of_rows first_cell].
    rewrite IH by done. by rewrite <- app_assoc.
Qed.

Lemma symbols_of_rows_fails rows : ∀ symbols,
  Exists (λ row, row = []) rows →
  symbols_of_rows rows symbols = Fails IndexError.
Proof.
  induction rows as [|row rows IH]; intros symbols Hrows.
  - by apply Exists_nil in Hrows.
  - destruct row as [|td row]; [done|]. cbn [symbols_of_rows first_cell].
    apply IH. apply Exists_cons in Hrows as [?|?]; done.
Qed.

(** [get_sp500_symbols] skips the first row of the table and gives one
    symbol per further row, in order: the text of its first cell,
    stripped, with every '.' turned into '-'.  Without a table it raises
    [AttributeError]; a row without a cell raises [IndexError]. *)
Theorem get_sp500_symbols_outcome (rows : list (list string)) :
  get_sp500_symbols None = Fails AttributeError ∧
  (Forall (λ row, row ≠ []) (drop 1 rows) →
   get_sp500_symbols (Some rows)
   = Returns ((λ row, normalize (default EmptyString (head row))) <$> drop 1 rows)) ∧
  (Exists (λ row, row = []) (drop 1 rows) →
   get_sp500_symbols (Some rows) = Fails IndexError).
Proof.
  split_and!; [done| |].
  - intros H. cbn [get_sp500_symbols]. by rewrite symbols_of_rows_returns.
  - intros H. cbn [get_sp500_symbols]. by apply symbols_of_rows_fails.
Qed.

Lemma get_sp500_symbols_clean table symbols :
  get_sp500_symbols table = Returns symbols →
  Forall (λ symbol, ¬ occurs "." symbol ∧ strip symbol = symbol) symbols.
Proof.
  destruct table as [rows|]; [|done]. cbn [get_sp500_symbols].
  destruct (decide (Forall (λ row, row ≠ []) (drop 1 rows))) as [H|H].
  - rewrite symbols_of_rows_returns by done. intros [= <-].
    apply Forall_fmap, Forall_forall. intros row _.
    apply normalize_clean.
  - rewrite symbols_of_rows_fails; [done|].
    apply not_Forall_Exists in H; [|apply _].
    eapply Exists_impl; [exact H|]. cbn. intros row Hrow.
    by destruct row; [|destruct Hrow].
Qed.

(** No symbol handed to the scan has a '.' in it or white space around
    it. *)
Theorem sp500_symbols_clean (table : option (list (list string)))
    (symbols : list string) :
  get_sp500_symbols table = Returns symbols →
  Forall (λ symbol, ¬ occurs "." symbol ∧ strip symbol = symbol) symbols.
Proof. apply get_sp500_symbols_clean. Qed.

Lemma sp500_symbols_clean_witness :
  get_sp500_symbols (Some [["Symbol"]; [" BRK.B "; "Berkshire"]; ["MMM"; "3M"]])
  = Returns ["BRK-B"; "MMM"] ∧
  Forall (λ symbol, ¬ occurs "." symbol ∧ strip symbol = symbol) ["BRK-B"; "MMM"].
Proof.
  split; [reflexivity|].
  apply (sp500_symbols_clean
           (Some [["Symbol"]; [" BRK.B "; "Berkshire"]; ["MMM"; "3M"]])).
  reflexivity.
Defined.

(** The texts the normalisation leaves alone are exactly the clean ones:
    no '.' and nothing to strip.  So it is idempotent. *)
Theorem normalize_fixpoint (td : string) :
  (normalize td = td ↔ strip td = td ∧ ¬ occurs "." td) ∧
  normalize (normalize td) = normalize td.
Proof.
  assert (H : ∀ t, strip t = t ∧ ¬ occurs "." t → normalize t = t).
  { intros t [H1 H2]. unfold normalize. rewrite H1. by apply replace_dot_free. }
  split; [split|].
  - intros E. destruct (normalize_clean td) as [H1 H2]. rewrite E in H1, H2. done.
  - apply H.
  - apply H. destruct (normalize_clean td). done.
Qed.

(** ** The financial metrics *)

Lemma percent_closed_form info key :
  percent info key = Returns (percent_value (info !! key)).
Proof.
  unfold percent, dict_get, percent_value.
  destruct (info !! key) as [[|z|[q|]]|]; cbn [truthy times_100]; try done.
  - destruct (z =? 0)%Z eqn:E; cbn [negb]; [|done].
    apply Z.eqb_eq in E as ->. done.
  - by destruct (Qeq_bool q 0).
Qed.

(** A percentage metric is never [None] and its computation never raises:
    the guard keeps [None] away from the multiplication.  It is the value
    times 100, and 0 when the figure is absent, [None] or zero. *)
Theorem percent_metric (info : gmap string PyVal) (key : string) :
  ∃ v, percent info key = Returns v ∧ v ≠ PyNone ∧
       (truthy (dict_get info key PyNone) = false → v = PyInt 0) ∧
       (∀ z, info !! key = Some (PyInt z) → v = PyInt (z * 100)) ∧
       (∀ q, info !! key = Some (PyFloat (Some q)) → ¬ q == 0 →
             v = PyFloat (Some (q * 100))).
Proof.
  exists (percent_value (info !! key)). split; [apply percent_closed_form|].
  unfold dict_get, percent_value. split_and!.
  - destruct (info !! key) as [[|z|[q|]]|]; try done. by destruct (Qeq_bool q 0).
  - destruct (info !! key) as [[|z|[q|]]|]; cbn [truthy]; try done.
    + rewrite negb_false_iff. by intros ->%Z.eqb_eq.
    + rewrite negb_false_iff. by intros ->.
  - by intros z ->.
  - intros q -> Hq. destruct (Qeq_bool q 0) eqn:E; [|done].
    by apply Qeq_bool_iff in E.
Qed.

(** Whenever the ticker answers, the financial data is returned, with the
    tables as they came: a missing metric never triggers the [except]
    branch.  The data has the four categories, in order, with 5, 4, 4 and
    2 metrics.  Only a raising ticker gives the five [None]. *)
Theorem get_stock_financials_returns {S} (info : gmap string PyVal)
    (balance_sheet income_stmt cash_flow holders : option S) :
  get_stock_financials (@TickerRaises S) = (None, None, None, None, None) ∧
  ∃ financial_data,
    get_stock_financials (TickerData info balance_sheet income_stmt cash_flow holders)
    = (Some financial_data, holders, balance_sheet, income_stmt, cash_flow) ∧
    financial_data.*1 = ["General"; "Trading"; "Fundamentals"; "Growth"] ∧
    (λ c, length c.2) <$> financial_data = [5; 4; 4; 2]%nat.
Proof.
  split; [done|]. unfold get_stock_financials, financial_data_of.
  rewrite !percent_closed_form. cbn [obind]. by eexists.
Qed.

(** ** The cumulative returns *)

Lemma cum_from_unfold (f : Q → option Q → xfloat) acc prev rest :
  (∀ x p, f x (Some p) = xsub (xdiv x p) 1) →
  zip_with (λ (m : bool) r, if m then XNaN else r)
    (isna <$> (xadd 1 <$> zip_with f rest (Some <$> prev :: rest)))
    (np_cumprod_from acc
       ((λ v, if isna v then Finite 1 else v) <$>
          (xadd 1 <$> zip_with f rest (Some <$> prev :: rest))))
  = cum_from acc prev rest.
Proof.
  intros Hf. revert acc prev.
  induction rest as [|x rest IH]; intros acc prev; [done|].
  cbn [fmap list_fmap zip_with np_cumprod_from cum_from].
  rewrite Hf. f_equal. apply IH.
Qed.

Lemma pct_change_unzip data :
  pct_change data
  = zip_with (λ x prev, xsub (match prev with
                              | Some p => xdiv x p
                              | None => XNaN
                              end) 1)
             data (None :: (Some <$> data)).
Proof.
  unfold pct_change, shift1. by rewrite length_fmap, zip_with_take_r.
Qed.

Lemma cumulative_returns_cons c0 rest :
  cumulative_returns (c0 :: rest) = XNaN :: cum_from (Finite 1) c0 rest.
Proof.
  unfold cumulative_returns, cumprod. rewrite pct_change_unzip.
  cbn [xsub xadd isna np_cumprod zip_with fmap list_fmap]. f_equal.
  by apply (cum_from_unfold (λ x prev, xsub (match prev with
                                             | Some p => xdiv x p
                                             | None => XNaN
                                             end) 1)).
Qed.

Lemma cum_from_after_zero rest : ∀ acc prev t c ct,
  (prev :: rest) !! t = Some c → c == 0 → rest !! t = Some ct →
  ∃ x, cum_from acc prev rest !! t = Some x ∧ ∀ q, x ≠ Finite q.
Proof.
  induction rest as [|x rest IH]; intros acc prev t c ct Hc Hz Ht; [done|].
  destruct t as [|t].
  - injection Hc as ->. injection Ht as ->. cbn [cum_from lookup list_lookup].
    unfold xdiv. apply Qeq_bool_iff in Hz. rewrite Hz.
    destruct (Qeq_bool ct 0); cbn [xsub xadd isna].
    + by eexists.
    + eexists. split; [reflexivity|].
      destruct acc as [p| |]; cbn [xmul]; [|done..].
      by destruct (Qeq_bool p 0).
  - exact (IH _ x t c ct Hc Hz Ht).
Qed.

(** After a close of zero the chart has no number to show: the next
    cumulative return is infinite or NaN. *)
Theorem cumulative_returns_after_zero_close (ps : PriceSeries)
    (t : nat) (c ct : Q) :
  (close <$> ps) !! t = Some c → c == 0 →
  (close <$> ps) !! S t = Some ct →
  ∃ x, cumulative_returns (close <$> ps) !! S t = Some x ∧
       ∀ q, x ≠ Finite q.
Proof.
  intros Hc Hz Ht. destruct (close <$> ps) as [|c0 rest]; [done|].
  rewrite cumulative_returns_cons.
  exact (cum_from_after_zero rest (Finite 1) c0 t c ct Hc Hz Ht).
Qed.

Lemma cumulative_returns_after_zero_close_witness :
  let ps := [mkPoint 1 10 10 10 10 0; mkPoint 2 0 0 0 0 0;
             mkPoint 3 5 5 5 5 0] in
  ∃ x, cumulative_returns (close <$> ps) !! 2%nat = Some x ∧
       ∀ q, x ≠ Finite q.
Proof.
  intros ps.
  exact (cumulative_returns_after_zero_close ps 1 0 5
           eq_refl (Qeq_refl 0) eq_refl).
Defined.

(** ** The chart of the Stocks page *)

Lemma frame_of_series_column ps :
  columns (frame_of_series ps) !! "Open" = Some (Floats ((λ p, Some (open p)) <$> ps)) ∧
  columns (frame_of_series ps) !! "High" = Some (Floats ((λ p, Some (high p)) <$> ps)) ∧
  columns (frame_of_series ps) !! "Low" = Some (Floats ((λ p, Some (low p)) <$> ps)) ∧
  columns (frame_of_series ps) !! "Close" = Some (Floats (closes ps)).
Proof.
  unfold frame_of_series, closes; cbn [columns].
  split_and!; rewrite ?lookup_insert_ne by done; apply lookup_insert_eq.
Qed.

Lemma show_stocks_list_history provider e s symbol ps w :
  (1 ≤ e)%nat → symbol ≠ "" → provider symbol = History ps → ps ≠ [] →
  (show_stocks_list provider e s (Some symbol) w).1
  = inr (Some
      [Candlestick (date <$> ps)
         (Floats ((λ p, Some (open p)) <$> ps))
         (Floats ((λ p, Some (high p)) <$> ps))
         (Floats ((λ p, Some (low p)) <$> ps))
         (Floats (closes ps)) "OHLC";
       Scatter (date <$> ps)
         (Floats (ewm_mean (alpha_of_span e) (closes ps))) (ema_name e) "orange";
       Scatter (date <$> ps)
         (Floats (rolling_mean s (closes ps))) (sma_name s) "blue"]).
Proof.
  intros He Hsym Hp Hps. unfold show_stocks_list.
  rewrite bool_decide_eq_false_2 by done.
  rewrite (fetch_stock_data_history _ _ _ _ Hp Hps).
  destruct (frame_of_series_column ps) as (Ho & Hh & Hl & Hc).
  rewrite (calculate_indicators_run _ (frame_of_series ps) (closes ps));
    [|apply frames_set_frame
     |by rewrite frame_of_series_empty, bool_decide_eq_false_2
     |exact Hc|exact He].
  rewrite frames_set_frame. unfold frame_getitem.
  rewrite !with_indicators_other, Ho, Hh, Hl, Hc
    by (first [apply not_eq_sym, ema_name_ne_close
              |apply not_eq_sym, sma_name_ne_close
              |unfold ema_name, sma_name; simpl; discriminate
              |done]).
  rewrite with_indicators_ema, with_indicators_sma. reflexivity.
Qed.

(** The Stocks page with a span of at least 1 never fails.  It draws
    nothing when the fetch fails or gives an empty history; otherwise it
    draws the candlesticks of the fetched prices and the two averages of
    their closes, every trace over the dates of the history (one point
    per row). *)
Theorem stocks_chart (provider : string → Fetch) (e s : nat)
    (symbol : string) (w : World) :
  (1 ≤ e)%nat → symbol ≠ "" →
  match provider symbol with
  | FetchRaises => (show_stocks_list provider e s (Some symbol) w).1 = inr None
  | History ps =>
      (show_stocks_list provider e s (Some symbol) w).1
      = inr (if bool_decide (ps = []) then None
             else Some
               [Candlestick (date <$> ps)
                  (Floats ((λ p, Some (open p)) <$> ps))
                  (Floats ((λ p, Some (high p)) <$> ps))
                  (Floats ((λ p, Some (low p)) <$> ps))
                  (Floats (closes ps)) "OHLC";
                Scatter (date <$> ps)
                  (Floats (ewm_mean (alpha_of_span e) (closes ps)))
                  (ema_name e) "orange";
                Scatter (date <$> ps)
                  (Floats (rolling_mean s (closes ps)))
                  (sma_name s) "blue"]) ∧
      length (ewm_mean (alpha_of_span e) (closes ps)) = length ps ∧
      length (rolling_mean s (closes ps)) = length ps
  end.
Proof.
  intros He Hsym. destruct (provider symbol) as [|ps] eqn:Hp.
  - unfold show_stocks_list. rewrite bool_decide_eq_false_2 by done.
    unfold fetch_stock_data. by rewrite Hp.
  - split.
    + case_bool_decide as Hps.
      * subst ps. unfold show_stocks_list.
        rewrite bool_decide_eq_false_2 by done.
        destruct (fetch_stock_data_fails provider symbol w (or_intror Hp))
          as (w' & -> & _). done.
      * by apply show_stocks_list_history.
    + unfold closes. by rewrite ewm_mean_length, rolling_mean_length, !length_fmap.
Qed.

Lemma stocks_chart_witness :
  ∃ fig, (show_stocks_list demo_provider 2 3 (Some "AAA") empty_world).1
         = inr (Some fig).
Proof.
  eexists.
  exact (proj1 (stocks_chart demo_provider 2 3 "AAA" empty_world
                  ltac:(lia) ltac:(discriminate))).
Defined.
